(** * semchunk: the splitting and merging engine of [semchunk.py]

    A shallow embedding of [_split_text], [merge_splits] and [chunk],
    together with the parts of the Python runtime they rely on
    ([str.split], [str.join], [re.findall] on a character class, [max] on
    strings, [bisect_left], true division, [functools.cache]).

    - A [str] is a list of code points; an [int] is a [Z]; a [float] is an
      IEEE 754 binary64 value, computed with the operations of
      [SpecFloat], so that [chunk_size * average] and
      [cumulative_lengths[midpoint] / tokens] round as they do in Python.
    - A computation returns a value or raises one of the exceptions that
      the engine can raise by itself.  The token counter is a pure
      function of the string; what it raises is not modelled.
    - [merge_splits] and [chunk] are written once, over a monad.  In the
      monad [ST] the two memoisation caches of the module are the state;
      in the monad [result] there is no state.  The first is the program,
      the second is what the program is proved to compute.
    - The depth of nested calls of [chunk] is bounded by a limit, beyond
      which the interpreter raises [RecursionError]. *)

From stdpp Require Import base numbers list gmap.
From Stdlib Require Import ZArith Lia.
From Stdlib Require Import Floats.SpecFloat.

Local Open Scope Z_scope.

(** ** Python values *)

(** A Python [str] is a sequence of Unicode code points. *)
Abbreviation char := N (only parsing).
Abbreviation str := (list N) (only parsing).

(** The exceptions the engine can raise by itself. *)
Inductive exn : Type :=
  | ZeroDivisionError
  | OverflowError
  | IndexError
  | ValueError
  | RecursionError.

(** The outcome of a computation that returns or raises. *)
Inductive result (A : Type) : Type :=
  | Ok (a : A)
  | Raise (e : exn).
Arguments Ok {A} a.
Arguments Raise {A} e.

#[global] Instance exn_eq_dec : EqDecision exn.
Proof. solve_decision. Defined.

(** ** Strings *)

(** [sep.join(pieces)] *)
Fixpoint join (sep : str) (pieces : list str) : str :=
  match pieces with
  | [] => []
  | [p] => p
  | p :: ps => p ++ sep ++ join sep ps
  end.

(** [s.startswith(p)] *)
Fixpoint starts_with (p s : str) : bool :=
  match p, s with
  | [], _ => true
  | _ :: _, [] => false
  | a :: p', b :: s' => (a =? b)%N && starts_with p' s'
  end.

(** [sub in s]: [sub] occurs in [s] as a contiguous substring. *)
Fixpoint contains (sub s : str) : bool :=
  starts_with sub s ||
  match s with
  | [] => false
  | _ :: s' => contains sub s'
  end.

(** The scan of [s.split(sep)] for a non-empty [sep]: occurrences of [sep]
    are found left to right and do not overlap.  [skip] counts the
    characters of the occurrence just found that are still to be passed
    over, [cur] is the piece being collected. *)
Fixpoint split_from (sep : str) (skip : nat) (cur : str) (s : str) : list str :=
  match s with
  | [] => [cur]
  | c :: s' =>
      match skip with
      | S k => split_from sep k cur s'
      | O =>
          if starts_with sep s
          then cur :: split_from sep (length sep - 1) [] s'
          else split_from sep 0 (cur ++ [c]) s'
      end
  end.

(** [s.split(sep)]; an empty separator raises [ValueError]. *)
Definition split (s sep : str) : result (list str) :=
  match sep with
  | [] => Raise ValueError
  | _ => Ok (split_from sep 0 [] s)
  end.

(** [list(s)]: the one-character strings of [s]. *)
Definition chars (s : str) : list str := map (λ c, [c]) s.

(** Comparison of strings, by code point and then by length. *)
Fixpoint str_ltb (a b : str) : bool :=
  match a, b with
  | _, [] => false
  | [], _ :: _ => true
  | x :: a', y :: b' => (x <? y)%N || ((x =? y)%N && str_ltb a' b')
  end.

(** [max(l)] on strings: the first greatest element; [ValueError] on an
    empty list. *)
Definition str_max (l : list str) : result str :=
  match l with
  | [] => Raise ValueError
  | x :: l' => Ok (foldl (λ m y, if str_ltb m y then y else m) x l')
  end.

(** ** Character classes and [re.findall] *)

(** [[\r\n]] *)
Definition is_newline (c : char) : bool := ((c =? 10) || (c =? 13))%N.

(** [\t] *)
Definition is_tab (c : char) : bool := (c =? 9)%N.

(** [\s] on a [str] pattern: the characters for which [str.isspace] holds. *)
Definition is_space (c : char) : bool :=
  (((9 <=? c) && (c <=? 13)) || ((28 <=? c) && (c <=? 32)) ||
   (c =? 133) || (c =? 160) || (c =? 5760) ||
   ((8192 <=? c) && (c <=? 8202)) || (c =? 8232) || (c =? 8233) ||
   (c =? 8239) || (c =? 8287) || (c =? 12288))%N.

(** [re.findall(r'[cls]+', s)]: the maximal runs of characters of the
    class, left to right.  [cur] is the run being collected. *)
Fixpoint runs_from (cls : char → bool) (cur : str) (s : str) : list str :=
  match s with
  | [] => match cur with [] => [] | _ => [cur] end
  | c :: s' =>
      if cls c then runs_from cls (cur ++ [c]) s'
      else match cur with
           | [] => runs_from cls [] s'
           | _ => cur :: runs_from cls [] s'
           end
  end.

Definition findall (cls : char → bool) (s : str) : list str := runs_from cls [] s.

(** [re.search(r'[cls]', s)] as a truth value. *)
Definition search (cls : char → bool) (s : str) : bool := existsb cls s.

(** ** The splitter selector *)

(** The splitters in order of desirability: sentence terminators, clause
    separators, sentence interrupters, word joiners. *)
Definition _NON_WHITESPACE_SEMANTIC_SPLITTERS : list str :=
  [ [46]; [63]; [33]; [42];
    [59]; [44]; [40]; [41]; [91]; [93]; [8220]; [8221]; [8216]; [8217];
    [39]; [34]; [96];
    [58]; [8212]; [8230];
    [47]; [92]; [8211]; [38]; [45] ]%N.

Definition _split_text (text : str) : result (str * bool * list str) :=
  let splitter_is_whitespace := true in
  if contains [10%N] text || contains [13%N] text then
    match str_max (findall is_newline text) with
    | Raise e => Raise e
    | Ok splitter =>
        match split text splitter with
        | Raise e => Raise e
        | Ok splits => Ok (splitter, splitter_is_whitespace, splits)
        end
    end
  else if contains [9%N] text then
    match str_max (findall is_tab text) with
    | Raise e => Raise e
    | Ok splitter =>
        match split text splitter with
        | Raise e => Raise e
        | Ok splits => Ok (splitter, splitter_is_whitespace, splits)
        end
    end
  else if search is_space text then
    match str_max (findall is_space text) with
    | Raise e => Raise e
    | Ok splitter =>
        match split text splitter with
        | Raise e => Raise e
        | Ok splits => Ok (splitter, splitter_is_whitespace, splits)
        end
    end
  else
    match find (λ splitter, contains splitter text) _NON_WHITESPACE_SEMANTIC_SPLITTERS with
    | Some splitter =>
        match split text splitter with
        | Raise e => Raise e
        | Ok splits => Ok (splitter, false, splits)
        end
    | None => Ok ([], splitter_is_whitespace, chars text)
    end.

(** ** Numbers *)

(** Python floats are IEEE 754 binary64 values. *)
Abbreviation float := spec_float (only parsing).
Definition prec : Z := 53.
Definition emax : Z := 1024.

(** The least magnitude that rounds (to nearest, ties to even) out of the
    range of the finite floats. *)
Definition float_overflow : Z := 2 ^ 1024 - 2 ^ 970.

(** [float(z)] for an int [z]: correctly rounded; [OverflowError] when the
    int is too large. *)
Definition float_of_int (z : Z) : result float :=
  if Z.abs z <? float_overflow
  then Ok (binary_normalize prec emax z 0 false)
  else Raise OverflowError.

(** [z * x] for an int [z] and a float [x]. *)
Definition int_mul_float (z : Z) (x : float) : result float :=
  match float_of_int z with
  | Ok f => Ok (SFmul prec emax f x)
  | Raise e => Raise e
  end.

(** [a / b] for ints: the correctly rounded quotient. *)
Definition true_div (a b : Z) : result float :=
  if b =? 0 then Raise ZeroDivisionError
  else if a =? 0 then Ok (S754_zero (b <? 0))
  else if float_overflow * Z.abs b <=? Z.abs a then Raise OverflowError
  else
    let '(q, e, l) := SFdiv_core_binary prec emax (Z.abs a) 0 (Z.abs b) 0 in
    Ok (binary_round_aux prec emax (xorb (a <? 0) (b <? 0)) q e l).

(** [z < x] for an int [z] and a float [x]: the comparison is exact. *)
Definition int_lt_float (z : Z) (x : float) : bool :=
  match x with
  | S754_nan => false
  | S754_infinity s => negb s
  | S754_zero _ => z <? 0
  | S754_finite s m e =>
      let v := if s then Z.neg m else Z.pos m in
      if 0 <=? e then z <? v * 2 ^ e else z * 2 ^ (- e) <? v
  end.

(** The literal [0.2]. *)
Definition float_0_2 : float := S754_finite false 7205759403792794 (-55).

(** ** Lists *)

(** [len(l)] *)
Definition len {A} (l : list A) : Z := Z.of_nat (length l).

(** An index or slice bound brought into [0 .. len]; negative ones count
    from the end. *)
Definition clamp (len i : Z) : Z :=
  if i <? 0 then Z.max 0 (i + len) else Z.min i len.

(** [l[start:stop]] *)
Definition slice {A} (l : list A) (start stop : Z) : list A :=
  let a := clamp (len l) start in
  let b := clamp (len l) stop in
  take (Z.to_nat (b - a)) (drop (Z.to_nat a) l).

(** [l[:stop]] *)
Definition slice_to {A} (l : list A) (stop : Z) : list A := slice l 0 stop.

(** [l[start:]] *)
Definition slice_from {A} (l : list A) (start : Z) : list A := slice l start (len l).

(** [l[i]]; [IndexError] out of range. *)
Definition index {A} (l : list A) (i : Z) : result A :=
  let j := if i <? 0 then i + len l else i in
  if j <? 0 then Raise IndexError
  else match l !! Z.to_nat j with
       | Some x => Ok x
       | None => Raise IndexError
       end.

(** [l[-1] = x] on a non-empty list. *)
Definition set_last {A} (l : list A) (x : A) : list A :=
  take (length l - 1) l ++ [x].

(** [range(a, b)] *)
Definition range (a b : Z) : list Z := seqZ a (b - a).

(** [list(accumulate(l, initial=initial))] *)
Fixpoint accumulate (l : list Z) (initial : Z) : list Z :=
  initial :: match l with
             | [] => []
             | x :: l' => accumulate l' (initial + x)
             end.

(** The loop of [bisect_left(a, x)]; [hi - lo] decreases at every turn, so
    [length a] turns are enough. *)
Fixpoint bisect_loop (turns : nat) (a : list Z) (x : float) (lo hi : Z) : Z :=
  match turns with
  | O => lo
  | S k =>
      if lo <? hi then
        let mid := (lo + hi) `div` 2 in
        if int_lt_float (nth (Z.to_nat mid) a 0) x
        then bisect_loop k a x (mid + 1) hi
        else bisect_loop k a x lo mid
      else lo
  end.

Definition bisect_left (a : list Z) (x : float) : Z :=
  bisect_loop (length a) a x 0 (len a).

(** ** Computations *)

(** The engine is written once, over a monad in which a call of the token
    counter and a call of [chunk] itself are effects. *)
Class MRaise (M : Type → Type) := mraise : ∀ {A}, exn → M A.
Arguments mraise {_ _ _} _.

Definition lift {M} `{!MRet M, !MRaise M} {A} (r : result A) : M A :=
  match r with
  | Ok a => mret a
  | Raise e => mraise e
  end.

#[global] Instance result_ret : MRet result := λ A a, Ok a.
#[global] Instance result_bind : MBind result :=
  λ A B f m, match m with Ok a => f a | Raise e => Raise e end.
#[global] Instance result_raise : MRaise result := λ A e, Raise e.

(** ** The engine *)

Section engine.
Context {M : Type → Type} `{!MRet M, !MBind M, !MRaise M}.
(** The callables passed as [token_counter]. *)
Context {C : Type}.
(** [token_counter(s)] *)
Variable call : C → str → M Z.
(** [_memoised_token_counters.setdefault(token_counter, cache(token_counter))] *)
Variable memoised : C → M C.
(** The global name [chunk], which [chunk] calls for an oversized split. *)
Variable chunk : str → Z → C → bool → Z → M (list str).

(** The [while low < high] loop of [merge_splits]; [high - low] decreases
    at every turn, so [len(splits) + 1] turns are enough. *)
Fixpoint merge_loop (turns : nat) (splits : list str) (chunk_size : Z)
    (splitter : str) (token_counter : C) (cumulative_lengths : list Z)
    (average : float) (low high : Z) : M Z :=
  match turns with
  | O => mret low
  | S k =>
      if low <? high then
        x ← lift (int_mul_float chunk_size average);
        let i := bisect_left (slice cumulative_lengths low (high + 1)) x in
        let midpoint := Z.min (i + low) (high - 1) in
        tokens ← call token_counter (join splitter (slice_to splits midpoint));
        c ← lift (index cumulative_lengths midpoint);
        average ← (if c =? 0 then mret average else lift (true_div c tokens));
        if chunk_size <? tokens
        then merge_loop k splits chunk_size splitter token_counter
               cumulative_lengths average low midpoint
        else merge_loop k splits chunk_size splitter token_counter
               cumulative_lengths average (midpoint + 1) high
      else mret low
  end.

Definition merge_splits (splits : list str) (chunk_size : Z) (splitter : str)
    (token_counter : C) : M (Z * str) :=
  let average := float_0_2 in
  let low := 0 in
  let high := len splits + 1 in
  let cumulative_lengths := accumulate (map len splits) 0 in
  last ← lift (index cumulative_lengths (-1));
  let cumulative_lengths := cumulative_lengths ++ [last] in
  low ← merge_loop (S (length splits)) splits chunk_size splitter token_counter
        cumulative_lengths average low high;
  mret (low - 1, join splitter (slice_to splits (low - 1))).

(** One turn of the loop of [chunk], first half: an oversized split is
    chunked by a nested call, any other is merged with the splits that
    follow it and those are marked to be skipped. *)
Definition chunk_or_merge (splits : list str) (splitter : str) (chunk_size : Z)
    (token_counter : C) (memoize : bool) (_recursion_depth : Z)
    (i : Z) (split : str) (chunks : list str) (skips : gset Z)
    : M (list str * gset Z) :=
  tokens ← call token_counter split;
  if chunk_size <? tokens then
    sub ← chunk split chunk_size token_counter memoize (_recursion_depth + 1);
    mret (chunks ++ sub, skips)
  else
    '(final_split_in_chunk_i, new_chunk) ←
      merge_splits (slice_from splits i) chunk_size splitter token_counter;
    mret (chunks ++ [new_chunk],
          skips ∪ list_to_set (range (i + 1) (i + final_split_in_chunk_i))).

(** One turn of the loop of [chunk], second half: a splitter that is not
    whitespace and is followed by a split not yet consumed is put at the
    end of the last chunk when that fits, and made a chunk otherwise. *)
Definition attach_splitter (splits : list str) (splitter : str)
    (splitter_is_whitespace : bool) (chunk_size : Z) (token_counter : C)
    (i : Z) (chunks : list str) (skips : gset Z) : M (list str) :=
  if negb splitter_is_whitespace &&
     negb ((i =? len splits - 1) ||
           forallb (λ j, bool_decide (j ∈ skips)) (range (i + 1) (len splits)))
  then
    last ← lift (index chunks (-1));
    let last_chunk_with_splitter := last ++ splitter in
    tokens ← call token_counter last_chunk_with_splitter;
    if tokens <=? chunk_size
    then mret (set_last chunks last_chunk_with_splitter)
    else mret (chunks ++ [splitter])
  else mret chunks.

(** The [for i, split in enumerate(splits)] loop of [chunk]; [rest] holds
    the splits still to be visited, the first of them at index [i]. *)
Fixpoint chunk_loop (splits : list str) (splitter : str)
    (splitter_is_whitespace : bool) (chunk_size : Z) (token_counter : C)
    (memoize : bool) (_recursion_depth : Z)
    (rest : list str) (i : Z) (chunks : list str) (skips : gset Z)
    : M (list str) :=
  match rest with
  | [] => mret chunks
  | split :: rest' =>
      if bool_decide (i ∈ skips) then
        chunk_loop splits splitter splitter_is_whitespace chunk_size
          token_counter memoize _recursion_depth rest' (i + 1) chunks skips
      else
        '(chunks, skips) ←
          chunk_or_merge splits splitter chunk_size token_counter memoize
            _recursion_depth i split chunks skips;
        chunks ←
          attach_splitter splits splitter splitter_is_whitespace chunk_size
            token_counter i chunks skips;
        chunk_loop splits splitter splitter_is_whitespace chunk_size
          token_counter memoize _recursion_depth rest' (i + 1) chunks skips
  end.

(** The body of [chunk], before [functools.cache] is put around it. *)
Definition chunk_body (text : str) (chunk_size : Z) (token_counter : C)
    (memoize : bool) (_recursion_depth : Z) : M (list str) :=
  token_counter ←
    (if (_recursion_depth =? 0) && memoize
     then memoised token_counter else mret token_counter);
  '(splitter, splitter_is_whitespace, splits) ← lift (_split_text text);
  chunks ← chunk_loop splits splitter splitter_is_whitespace chunk_size
             token_counter memoize _recursion_depth splits 0 [] ∅;
  if _recursion_depth =? 0
  then mret (filter (λ c, c ≠ []) chunks)
  else mret chunks.
End engine.

(** ** The process state: the two memoisation caches *)

(** A token counter is the caller's function or the wrapper that
    [functools.cache] puts around it. *)
Inductive callable : Type := Counter | Memoised.

#[global] Instance callable_eq_dec : EqDecision callable.
Proof. solve_decision. Defined.
#[global] Instance callable_countable : Countable callable.
Proof.
  refine (inj_countable' (λ c, match c with Counter => false | Memoised => true end)
            (λ b, if b then Memoised else Counter) _).
  by intros [].
Defined.

(** The arguments of a call of [chunk], which key its cache. *)
Abbreviation chunk_key := (str * Z * callable * bool * Z)%type (only parsing).

(** The state is that of one token counter: both caches are keyed by the
    identity of the counter, so that calls with another counter read and
    fill other entries. *)
Record caches : Type := Caches {
  (** the cache inside the memoised token counter *)
  token_cache : gmap str Z;
  (** the cache around [chunk] *)
  chunk_cache : gmap chunk_key (list str)
}.

Definition no_caches : caches := Caches ∅ ∅.

(** A computation that reads and fills the caches. *)
Definition ST (A : Type) : Type := caches → result A * caches.

#[global] Instance ST_ret : MRet ST := λ A a σ, (Ok a, σ).
#[global] Instance ST_bind : MBind ST :=
  λ A B f m σ,
    match m σ with
    | (Ok a, σ') => f a σ'
    | (Raise e, σ') => (Raise e, σ')
    end.
#[global] Instance ST_raise : MRaise ST := λ A e σ, (Raise e, σ).

Section program.
(** The caller's token counter, a pure function. *)
Variable counter : str → Z.

Definition call (c : callable) (s : str) : ST Z :=
  match c with
  | Counter => λ σ, (Ok (counter s), σ)
  | Memoised => λ σ,
      match token_cache σ !! s with
      | Some n => (Ok n, σ)
      | None =>
          let n := counter s in
          (Ok n, Caches (<[s := n]> (token_cache σ)) (chunk_cache σ))
      end
  end.

Definition memoised (c : callable) : ST callable := mret Memoised.

(** [functools.cache] around a call with arguments [key]; only a returned
    value is stored. *)
Definition cached (key : chunk_key) (body : ST (list str)) : ST (list str) :=
  λ σ,
    match chunk_cache σ !! key with
    | Some r => (Ok r, σ)
    | None =>
        match body σ with
        | (Ok r, σ') => (Ok r, Caches (token_cache σ') (<[key := r]> (chunk_cache σ')))
        | (Raise e, σ') => (Raise e, σ')
        end
    end.

(** [chunk], with [limit] nested calls left before the interpreter raises
    [RecursionError]. *)
Fixpoint chunk (limit : nat) (text : str) (chunk_size : Z) (token_counter : callable)
    (memoize : bool) (_recursion_depth : Z) : ST (list str) :=
  match limit with
  | O => mraise RecursionError
  | S l =>
      cached (text, chunk_size, token_counter, memoize, _recursion_depth)
        (chunk_body call memoised (chunk l)
           text chunk_size token_counter memoize _recursion_depth)
  end.
End program.

(** ** The engine without the caches *)

(** The same engine run in the monad of plain results: a call of the token
    counter is a call of the caller's function, and a call of [chunk] runs
    its body.  The caches are shown below to change nothing but the work
    done. *)
Section denotation.
Variable counter : str → Z.

Definition call_pure (c : callable) (s : str) : result Z := Ok (counter s).

Definition memoised_pure (c : callable) : result callable := Ok Memoised.

Fixpoint chunk_pure (limit : nat) (text : str) (chunk_size : Z)
    (token_counter : callable) (memoize : bool) (_recursion_depth : Z)
    : result (list str) :=
  match limit with
  | O => Raise RecursionError
  | S l =>
      chunk_body call_pure memoised_pure (chunk_pure l)
        text chunk_size token_counter memoize _recursion_depth
  end.
End denotation.

(** ** Specification vocabulary *)

(** [sum(l)] *)
Definition sumZ (l : list Z) : Z := foldr Z.add 0 l.

(** The number of characters in the first [j] splits. *)
Definition prefix_len (splits : list str) (j : Z) : Z :=
  sumZ (map len (slice_to splits j)).

(** What [_split_text] returns, by tier. *)
Inductive split_text_spec (text : str) : str → bool → list str → Prop :=
  | split_whitespace splitter :
      splitter ≠ [] →
      split_text_spec text splitter true (split_from splitter 0 [] text)
  | split_semantic c :
      search is_space text = false → is_space c = false →
      split_text_spec text [c] false (split_from [c] 0 [] text)
  | split_characters :
      search is_space text = false →
      split_text_spec text [] true (chars text).

(** The longest of a list of strings, the first one among equals. *)
Definition longest (l : list str) : option str :=
  match l with
  | [] => None
  | x :: l' => Some (foldl (λ m y, if (length m <? length y)%nat then y else m) x l')
  end.

(** The token count of the first [j] splits joined by the splitter. *)
Definition probe (counter : str → Z) (splitter : str) (splits : list str) (j : Z) : Z :=
  counter (join splitter (slice_to splits j)).

(** The list [cumulative_lengths] of [merge_splits]. *)
Definition cumulative (splits : list str) : list Z :=
  accumulate (map len splits) 0 ++ [sumZ (map len splits)].

(** When the loop of [merge_splits], run on the window [low .. high), raises
    [e]: either the chunk size does not convert to a float, or the window
    holds a prefix whose characters are divided by a token count of zero,
    or by one so small that the quotient is out of range. *)
Definition merge_error (counter : str → Z) (splits : list str) (chunk_size : Z)
    (splitter : str) (low high : Z) (e : exn) : Prop :=
  (e = OverflowError ∧ float_overflow ≤ Z.abs chunk_size) ∨
  ∃ j, low ≤ j < high ∧ prefix_len splits j ≠ 0 ∧
    ((e = ZeroDivisionError ∧ probe counter splitter splits j = 0) ∨
     (e = OverflowError ∧ probe counter splitter splits j ≠ 0 ∧
      float_overflow * Z.abs (probe counter splitter splits j)
        ≤ Z.abs (prefix_len splits j))).

(** The test that guards the reattachment of the splitter in [chunk]. *)
Definition attach_wanted (splits : list str) (w : bool) (i : Z) (skips : gset Z) : bool :=
  negb w &&
  negb ((i =? len splits - 1) ||
        forallb (λ j, bool_decide (j ∈ skips)) (range (i + 1) (len splits))).

(** A chunk is within the budget when its token count is at most the chunk
    size or it is a single character. *)
Definition within (counter : str → Z) (chunk_size : Z) (c : str) : Prop :=
  counter c ≤ chunk_size ∨ length c = 1%nat.

(** The chunks occur in the text one after the other, left to right and
    without overlap: the text is a gap, the first chunk, a gap, the second
    chunk, and so on. *)
Inductive in_order : list str → str → Prop :=
  | in_order_nil text : in_order [] text
  | in_order_cons gap c chunks text :
      in_order chunks text → in_order (c :: chunks) (gap ++ c ++ text).

(** The same, and the last chunk ends the text. *)
Definition ends_with (chunks : list str) (text : str) : Prop :=
  ∃ init c before, chunks = init ++ [c] ∧ text = before ++ c ∧ in_order init before.

(** The splits up to [k] joined, with the splitter after them when it is
    reattached and a split follows. *)
Definition consumed (splits : list str) (splitter : str) (w : bool) (k : Z) : str :=
  join splitter (take (Z.to_nat k) splits) ++
  (if w then [] else if k <? len splits then splitter else []).

(** What holds of the chunks and the skips when the loop of [chunk] comes
    to index [i]: the splits before some [nxt] are consumed, those from [i]
    to [nxt] are the ones marked to be skipped, and the chunks occur in
    order in the text consumed and end it. *)
Definition in_order_inv (splits : list str) (splitter : str) (w : bool)
    (i : Z) (chunks : list str) (skips : gset Z) : Prop :=
  ∃ nxt, i ≤ nxt ≤ len splits ∧
    (∀ j, i ≤ j → j ∈ skips ↔ j < nxt) ∧
    (nxt = 0 → chunks = []) ∧
    (0 < nxt → ends_with chunks (consumed splits splitter w nxt)).

(** [r'] is [r], unless [r] is the lack of nested calls. *)
Definition settles {A} (r r' : result A) : Prop :=
  r = Raise RecursionError ∨ r = r'.

(** ** The caches and the engine *)

(** The caches hold nothing but what the engine computes: a token count is
    the count the caller's function gives, and a list of chunks is the one
    [chunk] returns with enough nested calls allowed. *)
Definition caches_ok (counter : str → Z) (σ : caches) : Prop :=
  (∀ s n, token_cache σ !! s = Some n → n = counter s) ∧
  (∀ text chunk_size tc memoize depth r,
     chunk_cache σ !! (text, chunk_size, tc, memoize, depth) = Some r →
     ∃ L, ∀ l, (L ≤ l)%nat → chunk_pure counter l text chunk_size tc memoize depth = Ok r).

(** A computation on the caches refines a plain result when, from good
    caches, it ends with that result and leaves the caches good. *)
Definition refines (counter : str → Z) {A} (m : ST A) (p : result A) : Prop :=
  ∀ σ, caches_ok counter σ → ∃ σ', m σ = (p, σ') ∧ caches_ok counter σ'.

(** The same up to the limit on nested calls: the computation may raise
    [RecursionError]; otherwise it ends with the result that the engine
    without caches gives for every limit large enough. *)
Definition refines_upto (counter : str → Z) {A} (m : ST A) (p : nat → result A) : Prop :=
  ∀ σ, caches_ok counter σ →
    ∃ r σ', m σ = (r, σ') ∧ caches_ok counter σ' ∧
      (r = Raise RecursionError ∨ ∃ L, ∀ l, (L ≤ l)%nat → p l = r).

(** A computation on the caches follows a plain result when, from good
    caches, it ends with that result unless the plain result is the lack of
    nested calls, and leaves the caches good. *)
Definition follows (counter : str → Z) {A} (m : ST A) (p : result A) : Prop :=
  ∀ σ, caches_ok counter σ →
    ∃ r σ', m σ = (r, σ') ∧ caches_ok counter σ' ∧ settles p r.

(** A token counter is well behaved for a chunk size when the empty string
    and every single character are within the chunk size, no other string
    counts zero tokens, and the chunk size is in the range of the floats. *)
Definition well_behaved (counter : str → Z) (chunk_size : Z) : Prop :=
  counter [] ≤ chunk_size ∧
  (∀ c, counter [c] ≤ chunk_size) ∧
  (∀ s, s ≠ [] → counter s ≠ 0) ∧
  Z.abs chunk_size < float_overflow.

(** ** Token counters used in the examples *)

(** One token per word, a word being a maximal run of characters that are
    not whitespace. *)
Definition words (s : str) : Z := len (findall (λ c, negb (is_space c)) s).

(** One token per character. *)
Definition characters (s : str) : Z := len s.

(** Two tokens per character. *)
Definition two_per_character (s : str) : Z := 2 * len s.

(** No token at all. *)
Definition no_tokens (s : str) : Z := 0.

(** Five tokens for a string of three characters, one for any other: a
    counter that is not monotone. *)
Definition dipping (s : str) : Z := if (length s =? 3)%nat then 5 else 1.

(** A counter, pure and non-negative, that finds eleven tokens in the empty
    string and a number of tokens beyond the range of the floats in two
    particular strings. *)
Definition astronomic (s : str) : Z :=
  if decide (s = []) then 11
  else if decide (s = [97; 32; 98]%N ∨ s = [97; 46; 46; 98]%N) then 2 ^ 1080
  else 1.

(** ** More specification vocabulary *)

(** The string without its whitespace. *)
Definition without_whitespace (s : str) : str := filter (λ c, is_space c = false) s.

(** What holds of the chunks and the skips when the loop of [chunk] comes
    to index [i], as to the characters: the splits before some [nxt] are
    consumed, those from [i] to [nxt] are the ones marked to be skipped,
    and the chunks hold, in order, the characters of the text consumed that
    are not whitespace. *)
Definition characters_inv (splits : list str) (splitter : str) (w : bool)
    (i : Z) (chunks : list str) (skips : gset Z) : Prop :=
  ∃ nxt, i ≤ nxt ≤ len splits ∧
    (∀ j, i ≤ j → j ∈ skips ↔ j < nxt) ∧
    (nxt = 0 → chunks = []) ∧
    (0 < nxt → without_whitespace (concat chunks)
               = without_whitespace (consumed splits splitter w nxt)).

(** What [chunk] raises with the empty string within the chunk size, and
    when: [RecursionError]; [ZeroDivisionError] when the counter finds no
    token in a string that is not empty; [OverflowError] when the chunk
    size is out of the range of the floats, or the characters of a string
    divided by its tokens are. *)
Definition chunk_error (counter : str → Z) (chunk_size : Z) (e : exn) : Prop :=
  e = RecursionError ∨
  (e = ZeroDivisionError ∧ ∃ s, s ≠ [] ∧ counter s = 0) ∨
  (e = OverflowError ∧
   (float_overflow ≤ Z.abs chunk_size ∨
    ∃ s, s ≠ [] ∧ float_overflow * Z.abs (counter s) ≤ len s)).

(** The caches [σ'] hold what [σ] holds and maybe more, and the entries of
    the calls of [chunk] at a depth below [d] are the same in both. *)
Definition extends (d : Z) (σ σ' : caches) : Prop :=
  token_cache σ ⊆ token_cache σ' ∧ chunk_cache σ ⊆ chunk_cache σ' ∧
  ∀ key : str * Z * callable * bool * Z,
    key.2 < d → chunk_cache σ' !! key = chunk_cache σ !! key.

(** A computation keeps a relation between the caches it starts from and
    the caches it ends with. *)
Definition keeps (R : caches → caches → Prop) {A} (m : ST A) : Prop :=
  ∀ σ, R σ (m σ).2.

(** * Properties *)

(** ** Strings *)

Lemma join_cons sep p q ps :
  join sep (p :: q :: ps) = p ++ sep ++ join sep (q :: ps).
Proof. reflexivity. Qed.

Lemma join_cons_ne sep p ps :
  ps ≠ [] → join sep (p :: ps) = p ++ sep ++ join sep ps.
Proof. destruct ps; [done | intros _; apply join_cons]. Qed.

Lemma join_nil_sep (ps : list str) : join [] ps = concat ps.
Proof.
  induction ps as [|p [|q ps] IH]; simpl in *; [done | by rewrite app_nil_r |].
  by rewrite IH.
Qed.

Lemma join_chars (s : str) : join [] (chars s) = s.
Proof.
  rewrite join_nil_sep. unfold chars.
  induction s as [|c s IH]; simpl; [done | by rewrite IH].
Qed.

Lemma join_app sep xs ys :
  xs ≠ [] → ys ≠ [] → join sep (xs ++ ys) = join sep xs ++ sep ++ join sep ys.
Proof.
  intros Hx Hy. induction xs as [|x xs IH]; [done |].
  destruct xs as [|x' xs].
  - cbn [app]. by rewrite join_cons_ne.
  - cbn [app]. rewrite !join_cons.
    change (x' :: xs ++ ys) with ((x' :: xs) ++ ys). rewrite IH by done.
    by rewrite <- !app_assoc.
Qed.

Lemma join_elem_length sep l p :
  p ∈ l →
  (length p ≤ length (join sep l))%nat ∧
  ((2 ≤ length l)%nat → (length p + length sep ≤ length (join sep l))%nat).
Proof.
  induction l as [|q [|q' l] IH]; [set_solver | |].
  - intros ->%list_elem_of_singleton. simpl. lia.
  - rewrite join_cons, !length_app.
    intros [-> | Hp]%elem_of_cons; [simpl; lia |].
    destruct (IH Hp) as [IH1 _]. simpl length at 3. lia.
Qed.

Lemma starts_with_app p r : starts_with p (p ++ r) = true.
Proof. induction p as [|a p IH]; simpl; [done | by rewrite N.eqb_refl]. Qed.

Lemma starts_with_inv p s : starts_with p s = true → ∃ r, s = p ++ r.
Proof.
  revert s. induction p as [|a p IH]; intros s H; simpl in *; [by exists s |].
  destruct s as [|b s]; [done |].
  apply andb_true_iff in H as [Hab H]. apply N.eqb_eq in Hab as ->.
  destruct (IH _ H) as [r ->]. by exists r.
Qed.

Lemma contains_single c s : contains [c] s = existsb (N.eqb c) s.
Proof.
  induction s as [|b s IH]; simpl; [done |].
  rewrite IH. by rewrite andb_true_r.
Qed.

Lemma contains_inv sub s : contains sub s = true → ∃ a b, s = a ++ sub ++ b.
Proof.
  induction s as [|c s IH]; simpl.
  - rewrite orb_false_r. intros [r ->]%starts_with_inv. by exists [], r.
  - intros [[r ->]%starts_with_inv | (a & b & ->)%IH]%orb_true_iff.
    + by exists [], r.
    + by exists (c :: a), b.
Qed.

Lemma contains_app_r a s t : contains s t = true → contains s (a ++ t) = true.
Proof.
  intros H. induction a as [|x a IH]; [done |]. simpl contains at 1.
  cbn [app]. change (contains s (x :: a ++ t)) with
    (starts_with s (x :: a ++ t) || contains s (a ++ t)).
  rewrite IH. apply orb_true_r.
Qed.

Lemma contains_occurrence a c b : contains c (a ++ c ++ b) = true.
Proof.
  apply contains_app_r. destruct (c ++ b) eqn:E; simpl; rewrite <- E;
    by rewrite starts_with_app.
Qed.

Lemma split_from_skip sep p cur r :
  split_from sep (length p) cur (p ++ r) = split_from sep 0 cur r.
Proof. induction p as [|a p IH]; simpl; [done | apply IH]. Qed.

Lemma split_from_cons sep skip cur s : split_from sep skip cur s ≠ [].
Proof.
  revert skip cur. induction s as [|c s IH]; intros skip cur; simpl; [done |].
  destruct skip; [| apply IH]. destruct (starts_with sep (c :: s)); [done | apply IH].
Qed.

Lemma join_split_from sep s cur :
  sep ≠ [] → join sep (split_from sep 0 cur s) = cur ++ s.
Proof.
  intros Hsep. remember (length s) as n eqn:Hn.
  revert s cur Hn. induction (lt_wf n) as [n _ IH]. intros s cur ->.
  destruct s as [|c s]; [by rewrite app_nil_r |].
  cbn [split_from].
  destruct (starts_with sep (c :: s)) eqn:Hp.
  - apply starts_with_inv in Hp as [r Hr].
    destruct sep as [|a sep]; [done |]. simpl in Hr. injection Hr as -> ->.
    replace (length (a :: sep) - 1)%nat with (length sep) by (simpl; lia).
    rewrite split_from_skip.
    rewrite join_cons_ne by apply split_from_cons.
    rewrite (IH (length r)) with (s := r) (cur := []); [done | | done].
    simpl. rewrite ?length_app. lia.
  - rewrite (IH (length s)) with (s := s); [by rewrite <- app_assoc | simpl; lia | done].
Qed.

Lemma join_split s sep ps : split s sep = Ok ps → join sep ps = s.
Proof.
  unfold split. destruct sep as [|a sep]; [done |]. intros [= <-].
  by rewrite join_split_from.
Qed.

Lemma split_ok s sep : sep ≠ [] → split s sep = Ok (split_from sep 0 [] s).
Proof. by destruct sep. Qed.

Lemma split_from_two sep a b cur :
  sep ≠ [] → (2 ≤ length (split_from sep 0 cur (a ++ sep ++ b)))%nat.
Proof.
  intros Hsep. revert cur. induction a as [|x a IH]; intros cur.
  - destruct sep as [|c sep]; [done |]. cbn [app split_from].
    change (c :: sep ++ b) with ((c :: sep) ++ b). rewrite starts_with_app.
    pose proof (split_from_cons (c :: sep) (length (c :: sep) - 1) [] (sep ++ b)) as Hne.
    destruct (split_from _ _ _ _); [done | simpl; lia].
  - cbn [app split_from]. destruct (starts_with sep _).
    + pose proof (split_from_cons sep (length sep - 1) [] (a ++ sep ++ b)) as Hne.
      destruct (split_from _ _ _ _); [done | simpl; lia].
    + apply IH.
Qed.

(** [max] returns a member of its argument. *)
Lemma str_max_elem l m : str_max l = Ok m → m ∈ l.
Proof.
  destruct l as [|x l]; [done |]. simpl. intros [= <-].
  revert x. induction l as [|y l IH]; intros x; simpl; [set_solver |].
  destruct (str_ltb x y).
  - specialize (IH y). set_solver.
  - specialize (IH x). set_solver.
Qed.

Lemma str_max_ok l : l ≠ [] → ∃ m, str_max l = Ok m.
Proof. destruct l; [done | eauto]. Qed.

(** The runs that [findall] returns are not empty, and there is one as soon
    as a character of the class occurs. *)
Lemma runs_from_ne cls s cur r : r ∈ runs_from cls cur s → r ≠ [].
Proof.
  revert cur. induction s as [|c s IH]; intros cur; simpl.
  - destruct cur; [set_solver |]. intros ->%list_elem_of_singleton. done.
  - destruct (cls c); [apply IH |].
    destruct cur; [apply IH |].
    intros [-> | H]%elem_of_cons; [done | by eapply IH].
Qed.

Lemma runs_from_cons cls s cur :
  cur ≠ [] ∨ existsb cls s = true → runs_from cls cur s ≠ [].
Proof.
  revert cur. induction s as [|c s IH]; intros cur H; simpl in *.
  - destruct cur; [naive_solver | done].
  - destruct (cls c) eqn:Hc.
    + apply IH. left. by destruct cur.
    + destruct cur; [| done]. apply IH. naive_solver.
Qed.

Lemma runs_from_occurs cls s cur r :
  r ∈ runs_from cls cur s → ∃ a b, cur ++ s = a ++ r ++ b.
Proof.
  revert cur. induction s as [|c s IH]; intros cur; simpl.
  - destruct cur as [|x cur]; [set_solver |]. intros ->%list_elem_of_singleton.
    exists [], []. by rewrite !app_nil_r.
  - destruct (cls c).
    + intros (a & b & Hab)%IH. exists a, b. by rewrite <- Hab, <- app_assoc.
    + destruct cur as [|x cur].
      * intros (a & b & Hab)%IH. simpl in Hab. exists (c :: a), b. by rewrite Hab.
      * intros [-> | (a & b & Hab)%IH]%elem_of_cons.
        -- by exists [], (c :: s).
        -- simpl in Hab. exists ((x :: cur) ++ c :: a), b. rewrite Hab.
           by rewrite <- !app_assoc.
Qed.

Lemma existsb_weaken {A} (f g : A → bool) l :
  (∀ x, f x = true → g x = true) → existsb f l = true → existsb g l = true.
Proof.
  intros Hfg. rewrite !existsb_exists. intros (x & Hx & Hf). eauto.
Qed.

(** ** What the splitter selector returns *)

Lemma splitter_found cls text :
  existsb cls text = true →
  ∃ splitter, str_max (findall cls text) = Ok splitter ∧ splitter ≠ [].
Proof.
  intros H. destruct (str_max_ok (findall cls text)) as [m Hm].
  { apply runs_from_cons. by right. }
  exists m. split; [done |]. eapply runs_from_ne, str_max_elem, Hm.
Qed.

Lemma splitters_ne text splitter :
  find (λ splitter, contains splitter text) _NON_WHITESPACE_SEMANTIC_SPLITTERS
    = Some splitter →
  ∃ c, splitter = [c] ∧ is_space c = false.
Proof.
  intros H. apply find_some in H as [H _].
  unfold _NON_WHITESPACE_SEMANTIC_SPLITTERS in H. simpl in H.
  repeat (destruct H as [<- | H]; [eexists; split; [reflexivity | reflexivity] |]).
  done.
Qed.

Lemma split_text_total text :
  ∃ splitter w splits,
    _split_text text = Ok (splitter, w, splits) ∧
    split_text_spec text splitter w splits.
Proof.
  unfold _split_text.
  assert (Hrun : ∀ cls, existsb cls text = true →
    ∃ splitter w splits,
      match str_max (findall cls text) with
      | Raise e => Raise e
      | Ok splitter =>
          match split text splitter with
          | Raise e => Raise e
          | Ok splits => Ok (splitter, true, splits)
          end
      end = Ok (splitter, w, splits) ∧ split_text_spec text splitter w splits).
  { intros cls H. destruct (splitter_found cls text H) as (m & -> & Hm).
    rewrite split_ok by done. eexists _, _, _. split; [done | by constructor]. }
  destruct (contains [10%N] text || contains [13%N] text) eqn:H1.
  { apply Hrun. rewrite !contains_single in H1.
    apply orb_true_iff in H1 as [H1 | H1];
      (eapply existsb_weaken; [| exact H1]); intros x <-%N.eqb_eq; done. }
  destruct (contains [9%N] text) eqn:H2.
  { apply Hrun. rewrite contains_single in H2.
    eapply existsb_weaken; [| exact H2]. intros x <-%N.eqb_eq. done. }
  destruct (search is_space text) eqn:H3; [by apply Hrun |].
  destruct (find _ _) as [splitter|] eqn:H4.
  - destruct (splitters_ne _ _ H4) as (c & -> & Hc).
    rewrite split_ok by done. eexists _, _, _. split; [done | by constructor].
  - eexists _, _, _. split; [done | by constructor].
Qed.

Lemma split_text_inv text splitter w splits :
  _split_text text = Ok (splitter, w, splits) →
  split_text_spec text splitter w splits.
Proof.
  intros H. destruct (split_text_total text) as (d & w' & ps & H' & Hs).
  congruence.
Qed.

Lemma split_text_spec_join text splitter w splits :
  split_text_spec text splitter w splits → join splitter splits = text.
Proof.
  intros [d Hd | c _ _ | _].
  - by rewrite join_split_from.
  - by rewrite join_split_from.
  - apply join_chars.
Qed.

Lemma split_text_semantic text splitter splits :
  _split_text text = Ok (splitter, false, splits) → length splitter = 1%nat.
Proof. intros H%split_text_inv. by inversion H. Qed.

Lemma split_text_shorter text splitter w splits p :
  _split_text text = Ok (splitter, w, splits) → p ∈ splits →
  (∃ c, p = [c]) ∨ (length p < length text)%nat.
Proof.
  intros Hs Hp.
  assert (Hocc : splitter ≠ [] → (∃ a b, text = a ++ splitter ++ b) →
                 splits = split_from splitter 0 [] text →
                 (length p < length text)%nat).
  { intros Hne (a & b & Hab) ->.
    destruct (join_elem_length splitter _ p Hp) as [_ Hlen].
    rewrite join_split_from in Hlen by done. simpl in Hlen.
    rewrite Hab in Hlen at 1. specialize (Hlen (split_from_two _ _ _ _ Hne)).
    destruct splitter; [done |]. simpl in Hlen. lia. }
  assert (Hrun : ∀ cls,
    match str_max (findall cls text) with
    | Raise e => Raise e
    | Ok splitter =>
        match split text splitter with
        | Raise e => Raise e
        | Ok splits => Ok (splitter, true, splits)
        end
    end = Ok (splitter, w, splits) → (length p < length text)%nat).
  { intros cls H. destruct (str_max _) as [m|] eqn:Hm; [| done].
    apply str_max_elem in Hm. pose proof (runs_from_ne _ _ _ _ Hm) as Hne.
    rewrite split_ok in H by done. injection H as <- _ <-.
    apply Hocc; [done | | done]. by apply runs_from_occurs in Hm. }
  unfold _split_text in Hs.
  destruct (contains [10%N] text || contains [13%N] text); [right; by eapply Hrun |].
  destruct (contains [9%N] text); [right; by eapply Hrun |].
  destruct (search is_space text); [right; by eapply Hrun |].
  destruct (find _ _) as [d|] eqn:Hf.
  - right. destruct (splitters_ne _ _ Hf) as (c & -> & _).
    apply find_some in Hf as [_ Hc].
    rewrite split_ok in Hs by done. injection Hs as <- _ <-.
    apply Hocc; [done | by apply contains_inv | done].
  - left. injection Hs as _ _ <-. unfold chars in Hp.
    apply list_elem_of_In, in_map_iff in Hp as (c & <- & _). eauto.
Qed.

(** ** Slices, bisection, running sums *)

Lemma len_nonneg {A} (l : list A) : 0 ≤ len l.
Proof. unfold len. lia. Qed.

Lemma clamp_in len i : 0 ≤ len → 0 ≤ i ≤ len → clamp len i = i.
Proof. intros. unfold clamp. destruct (Z.ltb_spec i 0); lia. Qed.

Lemma slice_to_take {A} (l : list A) j :
  0 ≤ j → slice_to l j = take (Z.to_nat j) l.
Proof.
  intros Hj. unfold slice_to, slice, clamp. simpl.
  pose proof (len_nonneg l) as Hl.
  destruct (Z.ltb_spec j 0); [lia |].
  rewrite (Z.min_l 0) by done. rewrite Z.sub_0_r. simpl. rewrite drop_0.
  unfold len in *. destruct (Z.min_spec j (Z.of_nat (length l))) as [[? ->] | [? ->]]; [done |].
  rewrite Nat2Z.id. rewrite !take_ge; [done | lia | lia].
Qed.

Lemma slice_to_0 {A} (l : list A) : slice_to l 0 = [].
Proof. by rewrite slice_to_take. Qed.

Lemma slice_from_drop {A} (l : list A) i :
  0 ≤ i → slice_from l i = drop (Z.to_nat i) l.
Proof.
  intros Hi. unfold slice_from, slice, clamp.
  pose proof (len_nonneg l).
  destruct (Z.ltb_spec i 0); [lia |]. destruct (Z.ltb_spec (len l) 0); [lia |].
  rewrite Z.min_id. rewrite take_ge by (rewrite length_drop; unfold len in *; lia).
  unfold len in *. destruct (Z.min_spec i (Z.of_nat (length l))) as [[? ->] | [? ->]]; [done |].
  rewrite !drop_ge; [done | lia | lia].
Qed.

Lemma slice_length {A} (l : list A) a b :
  0 ≤ a ≤ b → b ≤ len l → len (slice l a b) = b - a.
Proof.
  intros Ha Hb. unfold slice, clamp, len in *.
  destruct (Z.ltb_spec a 0); [lia |]. destruct (Z.ltb_spec b 0); [lia |].
  rewrite length_take, length_drop. lia.
Qed.

Lemma index_lookup {A} (l : list A) j x :
  0 ≤ j → l !! Z.to_nat j = Some x → index l j = Ok x.
Proof.
  intros Hj H. unfold index. destruct (Z.ltb_spec j 0); [lia |].
  destruct (Z.ltb_spec j 0); [lia |]. by rewrite H.
Qed.

Lemma index_last {A} (l : list A) x : index (l ++ [x]) (-1) = Ok x.
Proof.
  unfold index, len. simpl. rewrite length_app. simpl.
  destruct (Z.ltb_spec (-1 + Z.of_nat (length l + 1)) 0); [lia |].
  replace (Z.to_nat (-1 + Z.of_nat (length l + 1))) with (length l) by lia.
  by rewrite list_lookup_middle.
Qed.

Lemma bisect_loop_bounds turns a x lo hi :
  0 ≤ lo ≤ hi → lo ≤ bisect_loop turns a x lo hi ≤ hi.
Proof.
  revert lo hi. induction turns as [|k IH]; intros lo hi H; simpl; [lia |].
  destruct (Z.ltb_spec lo hi); [| lia].
  assert (lo ≤ (lo + hi) `div` 2 < hi).
  { split; [apply Z.div_le_lower_bound | apply Z.div_lt_upper_bound]; lia. }
  destruct (int_lt_float _ _).
  - specialize (IH ((lo + hi) `div` 2 + 1) hi). lia.
  - specialize (IH lo ((lo + hi) `div` 2)). lia.
Qed.

Lemma bisect_left_bounds a x : 0 ≤ bisect_left a x ≤ len a.
Proof. apply bisect_loop_bounds. pose proof (len_nonneg a). lia. Qed.

(** The turns given to [bisect_loop] are enough: more change nothing. *)
Lemma bisect_loop_turns k k' a x lo hi :
  hi - lo ≤ Z.of_nat k → hi - lo ≤ Z.of_nat k' → 0 ≤ lo →
  bisect_loop k a x lo hi = bisect_loop k' a x lo hi.
Proof.
  revert k' lo hi. induction k as [|k IH]; intros k' lo hi H H' Hlo.
  - destruct k'; simpl; [done |]. destruct (Z.ltb_spec lo hi); [lia | done].
  - destruct k' as [|k']; simpl.
    + destruct (Z.ltb_spec lo hi); [lia | done].
    + destruct (Z.ltb_spec lo hi); [| done].
      assert (lo ≤ (lo + hi) `div` 2 < hi).
      { split; [apply Z.div_le_lower_bound | apply Z.div_lt_upper_bound]; lia. }
      destruct (int_lt_float _ _); apply IH; lia.
Qed.

Lemma accumulate_lookup l a (j : nat) :
  (j ≤ length l)%nat → accumulate l a !! j = Some (a + sumZ (take j l)).
Proof.
  revert a j. induction l as [|x l IH]; intros a j Hj.
  - simpl in Hj. assert (j = 0%nat) as -> by lia. simpl. f_equal. lia.
  - destruct j as [|j]; [simpl; f_equal; lia |].
    simpl in *. rewrite IH by lia. f_equal. unfold sumZ. lia.
Qed.

Lemma accumulate_length l a : length (accumulate l a) = S (length l).
Proof. revert a. induction l as [|x l IH]; intros a; simpl; [done | by rewrite IH]. Qed.

Lemma accumulate_snoc l a :
  ∃ c, accumulate l a = c ++ [a + sumZ l].
Proof.
  revert a. induction l as [|x l IH]; intros a.
  - exists []. simpl. f_equal. lia.
  - destruct (IH (a + x)) as [c Hc]. exists (a :: c). simpl. rewrite Hc.
    simpl. do 3 f_equal. lia.
Qed.

Lemma accumulate_index_last l a : index (accumulate l a) (-1) = Ok (a + sumZ l).
Proof. destruct (accumulate_snoc l a) as [c ->]. apply index_last. Qed.

Lemma sumZ_len_nonneg (ps : list str) : 0 ≤ sumZ (map len ps).
Proof. induction ps as [|p ps IH]; simpl; [done |]. pose proof (len_nonneg p). lia. Qed.

Lemma sumZ_take_le (ps : list str) j :
  sumZ (map len (take j ps)) ≤ sumZ (map len ps).
Proof.
  revert j. induction ps as [|p ps IH]; intros [|j]; simpl; try lia.
  - pose proof (sumZ_len_nonneg ps). pose proof (len_nonneg p). lia.
  - specialize (IH j). lia.
Qed.

Lemma sumZ_drop_le (ps : list str) j :
  sumZ (map len (drop j ps)) ≤ sumZ (map len ps).
Proof.
  revert j. induction ps as [|p ps IH]; intros [|j]; simpl; try lia.
  specialize (IH j). pose proof (len_nonneg p). lia.
Qed.

Lemma sumZ_len_join sep l : sumZ (map len l) ≤ len (join sep l).
Proof.
  induction l as [|p [|q l] IH]; [done | |].
  - simpl. lia.
  - rewrite join_cons. unfold len in *. rewrite !length_app.
    cbn [map sumZ foldr] in *. lia.
Qed.

Lemma join_nil_len sep l : join sep l = [] → sumZ (map len l) = 0.
Proof.
  induction l as [|p [|q l] IH]; [done | |].
  - simpl. intros ->. done.
  - rewrite join_cons. intros [-> [_ H]%app_eq_nil]%app_eq_nil.
    specialize (IH H). simpl in *. unfold len in *. simpl. lia.
Qed.

Lemma prefix_len_bounds splits j :
  0 ≤ j → 0 ≤ prefix_len splits j ≤ sumZ (map len splits).
Proof.
  intros Hj. unfold prefix_len. rewrite slice_to_take by done.
  split; [apply sumZ_len_nonneg | apply sumZ_take_le].
Qed.

Lemma cumulative_index splits j :
  0 ≤ j ≤ len splits → index (cumulative splits) j = Ok (prefix_len splits j).
Proof.
  intros Hj. apply index_lookup; [lia |]. unfold cumulative, prefix_len, len in *.
  rewrite lookup_app_l by (rewrite accumulate_length, length_map; lia).
  rewrite accumulate_lookup by (rewrite length_map; lia).
  rewrite slice_to_take by lia. by rewrite firstn_map.
Qed.

Lemma true_div_cases a b :
  (true_div a b = Raise ZeroDivisionError ∧ b = 0) ∨
  (true_div a b = Raise OverflowError ∧ b ≠ 0 ∧ float_overflow * Z.abs b ≤ Z.abs a) ∨
  (∃ f, true_div a b = Ok f ∧ b ≠ 0 ∧ (a = 0 ∨ Z.abs a < float_overflow * Z.abs b)).
Proof.
  unfold true_div.
  destruct (Z.eqb_spec b 0); [by left |]. right.
  destruct (Z.eqb_spec a 0); [right; eauto |].
  destruct (Z.leb_spec (float_overflow * Z.abs b) (Z.abs a)); [by left |].
  right. destruct (SFdiv_core_binary _ _ _ _ _ _) as [[q e] l]. eauto.
Qed.

Lemma int_mul_float_cases z x :
  (int_mul_float z x = Raise OverflowError ∧ float_overflow ≤ Z.abs z) ∨
  (∃ f, int_mul_float z x = Ok f ∧ Z.abs z < float_overflow).
Proof.
  unfold int_mul_float, float_of_int.
  destruct (Z.ltb_spec (Z.abs z) float_overflow); [right; eauto | by left].
Qed.

(** ** Computations that only return or raise *)

Lemma call_pure_bind {B} counter c s (f : Z → result B) :
  call_pure counter c s ≫= f = f (counter s).
Proof. reflexivity. Qed.

Lemma result_bind_ext {A B} (m : result A) (f g : A → result B) :
  (∀ a, f a = g a) → m ≫= f = m ≫= g.
Proof. intros H. destruct m; [apply H | done]. Qed.

Lemma settles_refl {A} (r : result A) : settles r r.
Proof. by right. Qed.

Lemma settles_bind {A B} (m m' : result A) (f f' : A → result B) :
  settles m m' → (∀ a, settles (f a) (f' a)) → settles (m ≫= f) (m' ≫= f').
Proof.
  intros [-> | <-] Hf; [by left |]. destruct m as [a|e]; [apply Hf | by right].
Qed.

(** ** The merge engine without the caches *)

Section merge_facts.
Variable counter : str → Z.
Variables (splits : list str) (chunk_size : Z) (splitter : str) (tc : callable).

Lemma merge_loop_spec turns average low high :
  0 ≤ low ≤ high → high ≤ len splits + 1 → high - low ≤ Z.of_nat turns →
  match merge_loop (call_pure counter) turns splits chunk_size splitter tc
          (cumulative splits) average low high with
  | Ok r =>
      low ≤ r ≤ high ∧
      (low < r → probe counter splitter splits (r - 1) ≤ chunk_size) ∧
      (r < high → chunk_size < probe counter splitter splits r)
  | Raise e => merge_error counter splits chunk_size splitter low high e
  end.
Proof.
  revert average low high. induction turns as [|k IH]; intros average low high Hl Hh Ht.
  { simpl. lia. }
  cbn [merge_loop]. destruct (Z.ltb_spec low high) as [Hlt|]; [| simpl; lia].
  destruct (int_mul_float_cases chunk_size average) as [[-> ?] | (x & -> & Hcs)].
  { by left. }
  cbn [lift mbind result_bind mret result_ret].
  set (i := bisect_left _ x).
  assert (0 ≤ i) as Hi by apply bisect_left_bounds.
  set (m := (i + low) `min` (high - 1)).
  assert (low ≤ m < high) as Hm by lia.
  rewrite call_pure_bind.
  rewrite cumulative_index by lia. cbn [lift mbind result_bind mret result_ret].
  fold (probe counter splitter splits m).
  assert (∀ average',
    match
      (if chunk_size <? probe counter splitter splits m
       then merge_loop (call_pure counter) k splits chunk_size splitter tc
              (cumulative splits) average' low m
       else merge_loop (call_pure counter) k splits chunk_size splitter tc
              (cumulative splits) average' (m + 1) high)
    with
    | Ok r =>
        low ≤ r ≤ high ∧
        (low < r → probe counter splitter splits (r - 1) ≤ chunk_size) ∧
        (r < high → chunk_size < probe counter splitter splits r)
    | Raise e => merge_error counter splits chunk_size splitter low high e
    end) as Hrest.
  { intros average'. destruct (Z.ltb_spec chunk_size (probe counter splitter splits m)) as [Hp|Hp].
    - specialize (IH average' low m ltac:(lia) ltac:(lia) ltac:(lia)).
      destruct (merge_loop _ _ _ _ _ _ _ _ _ _) as [r|e].
      + destruct IH as (? & ? & Hr). repeat split; [lia | lia | done |].
        intros ?. destruct (decide (r = m)) as [-> | ?]; [done | apply Hr; lia].
      + destruct IH as [? | (j & ? & ?)]; [by left | right; exists j; split; [lia | done]].
    - specialize (IH average' (m + 1) high ltac:(lia) ltac:(lia) ltac:(lia)).
      destruct (merge_loop _ _ _ _ _ _ _ _ _ _) as [r|e].
      + destruct IH as (? & Hr & ?). repeat split; [lia | lia | | done].
        intros ?. destruct (decide (r = m + 1)) as [-> | ?];
          [by replace (m + 1 - 1) with m by lia | apply Hr; lia].
      + destruct IH as [? | (j & ? & ?)]; [by left | right; exists j; split; [lia | done]]. }
  destruct (Z.eqb_spec (prefix_len splits m) 0) as [Hc|Hc].
  { cbn [mbind result_bind mret result_ret]. apply Hrest. }
  destruct (true_div_cases (prefix_len splits m) (probe counter splitter splits m))
    as [[-> Hz] | [(-> & Hz & Ho) | (f & -> & _)]];
    cbn [lift mbind result_bind mret result_ret].
  - right. exists m. split; [done |]. split; [done |]. by left.
  - right. exists m. split; [done |]. split; [done |]. by right.
  - apply Hrest.
Qed.
End merge_facts.

(** The turns given to [merge_loop] are enough: more change nothing. *)
Lemma merge_loop_turns counter k k' splits chunk_size splitter tc cum average low high :
  high - low ≤ Z.of_nat k → high - low ≤ Z.of_nat k' →
  merge_loop (call_pure counter) k splits chunk_size splitter tc cum average low high =
  merge_loop (call_pure counter) k' splits chunk_size splitter tc cum average low high.
Proof.
  revert k' average low high. induction k as [|k IH]; intros k' average low high Hk Hk'.
  - destruct k'; cbn [merge_loop]; [done |]. destruct (Z.ltb_spec low high); [lia | done].
  - destruct k' as [|k']; cbn [merge_loop].
    + destruct (Z.ltb_spec low high); [lia | done].
    + destruct (Z.ltb_spec low high); [| done].
      apply result_bind_ext. intros x.
      pose proof (bisect_left_bounds (slice cum low (high + 1)) x) as [Hi _].
      rewrite !call_pure_bind.
      apply result_bind_ext. intros c. apply result_bind_ext. intros average'.
      destruct (chunk_size <? _); apply IH; lia.
Qed.

Lemma merge_splits_pure counter splits chunk_size splitter tc :
  merge_splits (call_pure counter) splits chunk_size splitter tc =
  low ← merge_loop (call_pure counter) (S (length splits)) splits chunk_size
          splitter tc (cumulative splits) float_0_2 0 (len splits + 1);
  mret (low - 1, join splitter (slice_to splits (low - 1))).
Proof.
  unfold merge_splits. rewrite accumulate_index_last. reflexivity.
Qed.

Lemma merge_splits_spec counter splits chunk_size splitter tc :
  match merge_splits (call_pure counter) splits chunk_size splitter tc with
  | Ok (m, t) =>
      -1 ≤ m ≤ len splits ∧ t = join splitter (slice_to splits m) ∧
      (0 ≤ m → probe counter splitter splits m ≤ chunk_size) ∧
      (m < len splits → chunk_size < probe counter splitter splits (m + 1))
  | Raise e => merge_error counter splits chunk_size splitter 0 (len splits + 1) e
  end.
Proof.
  rewrite merge_splits_pure.
  pose proof (len_nonneg splits) as Hn.
  pose proof (merge_loop_spec counter splits chunk_size splitter tc
                (S (length splits)) float_0_2 0 (len splits + 1)) as H.
  destruct (merge_loop _ _ _ _ _ _ _ _ _ _) as [r|e]; cbn [mbind result_bind mret result_ret].
  - destruct H as (? & Hlo & Hhi); [lia | lia | unfold len; lia |].
    repeat split; [lia | lia | intros; apply Hlo; lia |].
    intros. replace (r - 1 + 1) with r by lia. apply Hhi. lia.
  - apply H; [lia | lia | unfold len; lia].
Qed.

(** With the empty string within the chunk size, what [merge_splits]
    returns is within the chunk size. *)
Lemma merge_splits_within counter splits chunk_size splitter tc m t :
  counter [] ≤ chunk_size →
  merge_splits (call_pure counter) splits chunk_size splitter tc = Ok (m, t) →
  0 ≤ m ≤ len splits ∧ t = join splitter (take (Z.to_nat m) splits) ∧
  counter t ≤ chunk_size.
Proof.
  intros H0 H. pose proof (merge_splits_spec counter splits chunk_size splitter tc) as Hs.
  rewrite H in Hs. destruct Hs as (Hm & -> & Hlo & Hhi).
  pose proof (len_nonneg splits).
  assert (0 ≤ m).
  { destruct (decide (m = -1)) as [-> |]; [| lia].
    specialize (Hhi ltac:(lia)). unfold probe in Hhi. simpl in Hhi.
    rewrite slice_to_0 in Hhi. simpl in Hhi. lia. }
  split; [lia |]. rewrite slice_to_take by done. split; [done |].
  specialize (Hlo ltac:(lia)). unfold probe in Hlo. by rewrite slice_to_take in Hlo.
Qed.

(** In [chunk] the first split given to [merge_splits] is within the chunk
    size, and then at least that split is merged. *)
Lemma merge_splits_first counter split rest chunk_size splitter tc m t :
  counter [] ≤ chunk_size → counter split ≤ chunk_size →
  merge_splits (call_pure counter) (split :: rest) chunk_size splitter tc = Ok (m, t) →
  1 ≤ m ≤ len (split :: rest) ∧
  t = join splitter (take (Z.to_nat m) (split :: rest)) ∧
  counter t ≤ chunk_size.
Proof.
  intros H0 H1 H.
  destruct (merge_splits_within _ _ _ _ _ _ _ H0 H) as (Hm & Ht & Hc).
  split; [| done].
  pose proof (merge_splits_spec counter (split :: rest) chunk_size splitter tc) as Hs.
  rewrite H in Hs. destruct Hs as (_ & _ & _ & Hhi).
  destruct (decide (m = 0)) as [-> |]; [| lia].
  unfold len in *. simpl length in *. specialize (Hhi ltac:(lia)).
  unfold probe in Hhi. rewrite slice_to_take in Hhi by lia. simpl in Hhi. lia.
Qed.

(** Without the caches: when the prefixes within the chunk size are those
    of at most [k] splits and nothing goes wrong with the numbers,
    [merge_splits] returns [k] and the first [k] splits joined. *)
Lemma merge_splits_threshold counter splits chunk_size splitter tc k :
  0 ≤ k ≤ len splits →
  (∀ j, 0 ≤ j ≤ len splits → probe counter splitter splits j ≤ chunk_size ↔ j ≤ k) →
  Z.abs chunk_size < float_overflow →
  sumZ (map len splits) < float_overflow →
  (∀ j, 0 ≤ j ≤ len splits → prefix_len splits j ≠ 0 → probe counter splitter splits j ≠ 0) →
  merge_splits (call_pure counter) splits chunk_size splitter tc
    = Ok (k, join splitter (slice_to splits k)).
Proof.
  intros Hk Hth Hcs Hsum Hnz. pose proof (len_nonneg splits) as Hn.
  pose proof (merge_splits_spec counter splits chunk_size splitter tc) as Hs.
  destruct (merge_splits _ _ _ _ _) as [[m t]|e].
  - destruct Hs as (Hm & -> & Hlo & Hhi).
    assert (m = k) as ->; [| done].
    destruct (decide (m = -1)) as [-> |].
    { specialize (Hhi ltac:(lia)). change (-1 + 1) with 0 in Hhi.
      pose proof (proj2 (Hth 0 ltac:(lia)) ltac:(lia)). lia. }
    pose proof (proj1 (Hth m ltac:(lia)) (Hlo ltac:(lia))).
    destruct (decide (m < len splits)) as [Hlt|]; [| lia].
    specialize (Hhi Hlt).
    destruct (decide (m + 1 ≤ k)) as [Hle|]; [| lia].
    pose proof (proj2 (Hth (m + 1) ltac:(lia)) Hle). lia.
  - exfalso. destruct Hs as [[_ ?] | (j & Hj & Hp & [[_ Hz] | (_ & Hz & Ho)])]; [lia | |].
    + by apply (Hnz j ltac:(lia)).
    + pose proof (prefix_len_bounds splits j ltac:(lia)). 
      assert (float_overflow ≤ float_overflow * Z.abs (probe counter splitter splits j)); [| lia].
      assert (0 < float_overflow) by done. nia.
Qed.

Lemma merge_splits_total counter splits chunk_size splitter tc :
  (∀ s, s ≠ [] → counter s ≠ 0) →
  Z.abs chunk_size < float_overflow →
  sumZ (map len splits) < float_overflow →
  ∃ m t, merge_splits (call_pure counter) splits chunk_size splitter tc = Ok (m, t).
Proof.
  intros Hnz Hcs Hsum.
  pose proof (merge_splits_spec counter splits chunk_size splitter tc) as Hs.
  destruct (merge_splits _ _ _ _ _) as [[m t]|e]; [eauto |]. exfalso.
  destruct Hs as [[_ ?] | (j & Hj & Hp & [[_ Hz] | (_ & Hz & Ho)])]; [lia | |].
  - apply Hnz in Hz; [done |]. intros Hnil. apply Hp.
    unfold prefix_len. by eapply join_nil_len.
  - pose proof (prefix_len_bounds splits j ltac:(lia)).
    assert (0 < float_overflow) by done. nia.
Qed.

(** ** The orchestrator without the caches *)

Section chunk_facts.
Variable counter : str → Z.
Variable rec : str → Z → callable → bool → Z → result (list str).

Lemma chunk_or_merge_inv splits splitter chunk_size tc memoize depth i split chunks skips chunks' skips' :
  chunk_or_merge (call_pure counter) rec splits splitter chunk_size tc memoize depth
    i split chunks skips = Ok (chunks', skips') →
  (chunk_size < counter split ∧
   ∃ sub, rec split chunk_size tc memoize (depth + 1) = Ok sub ∧
          chunks' = chunks ++ sub ∧ skips' = skips) ∨
  (counter split ≤ chunk_size ∧
   ∃ m new, merge_splits (call_pure counter) (slice_from splits i) chunk_size splitter tc
              = Ok (m, new) ∧
            chunks' = chunks ++ [new] ∧
            skips' = skips ∪ list_to_set (range (i + 1) (i + m))).
Proof.
  unfold chunk_or_merge. rewrite call_pure_bind.
  destruct (Z.ltb_spec chunk_size (counter split)) as [Hc|Hc].
  - destruct (rec _ _ _ _ _) as [sub|e]; [| done].
    cbn [mbind result_bind mret result_ret]. intros [= <- <-]. left. eauto.
  - destruct (merge_splits _ _ _ _ _) as [[m new]|e]; [| done].
    cbn [mbind result_bind mret result_ret]. intros [= <- <-]. right. eauto 10.
Qed.

Lemma index_last_inv {A} (l : list A) x :
  index l (-1) = Ok x → ∃ init, l = init ++ [x].
Proof.
  destruct l as [|y l _] using rev_ind; [done |].
  rewrite index_last. intros [= ->]. eauto.
Qed.

Lemma set_last_snoc {A} (l : list A) x y : set_last (l ++ [x]) y = l ++ [y].
Proof.
  unfold set_last. rewrite length_app. simpl.
  replace (length l + 1 - 1)%nat with (length l) by lia.
  by rewrite take_app_length.
Qed.

Lemma attach_splitter_inv splits splitter w chunk_size tc i chunks skips chunks' :
  attach_splitter (call_pure counter) splits splitter w chunk_size tc i chunks skips
    = Ok chunks' →
  (attach_wanted splits w i skips = false ∧ chunks' = chunks) ∨
  (attach_wanted splits w i skips = true ∧
   ∃ init last, chunks = init ++ [last] ∧
     ((counter (last ++ splitter) ≤ chunk_size ∧ chunks' = init ++ [last ++ splitter]) ∨
      (chunk_size < counter (last ++ splitter) ∧ chunks' = chunks ++ [splitter]))).
Proof.
  unfold attach_splitter. fold (attach_wanted splits w i skips).
  destruct (attach_wanted splits w i skips); [| intros [= <-]; by left].
  destruct (index chunks (-1)) as [last|e] eqn:Hl; [| done].
  apply index_last_inv in Hl as [init ->].
  cbn [lift mbind result_bind mret result_ret]. rewrite call_pure_bind.
  intros H. right. split; [done |]. exists init, last. split; [done |].
  destruct (Z.leb_spec (counter (last ++ splitter)) chunk_size).
  - injection H as <-. left. by rewrite set_last_snoc.
  - injection H as <-. by right.
Qed.
End chunk_facts.

Lemma attach_splitter_total counter splits splitter w chunk_size tc i chunks skips :
  chunks ≠ [] →
  ∃ chunks', attach_splitter (call_pure counter) splits splitter w chunk_size tc i chunks skips
               = Ok chunks'.
Proof.
  intros Hne. unfold attach_splitter. destruct (_ && _); [| by eexists].
  destruct chunks as [|c chunks _] using rev_ind; [done |].
  rewrite index_last. cbn [lift mbind result_bind mret result_ret].
  rewrite call_pure_bind. destruct (_ <=? _); by eexists.
Qed.

Lemma attach_wanted_semantic splits w i skips :
  attach_wanted splits w i skips = true → w = false.
Proof. unfold attach_wanted. by destruct w. Qed.

Lemma attach_wanted_spec splits w i skips nxt :
  (∀ j, i < j → j ∈ skips ↔ j < nxt) → i < nxt → 0 ≤ i →
  attach_wanted splits w i skips = negb w && (nxt <? len splits).
Proof.
  intros Hs Hi Hi0. unfold attach_wanted. f_equal.
  destruct (Z.ltb_spec nxt (len splits)) as [Hlt | Hge].
  - apply negb_true_iff, orb_false_iff. split; [lia |].
    apply not_true_is_false. intros H%Is_true_true%forallb_True.
    rewrite Forall_forall in H. specialize (H nxt).
    rewrite bool_decide_spec in H. unfold range in H. rewrite elem_of_seqZ in H.
    specialize (H ltac:(lia)). apply Hs in H; lia.
  - apply negb_false_iff, orb_true_iff. right.
    apply Is_true_true, forallb_True, Forall_forall. intros j Hj.
    unfold range in Hj. rewrite elem_of_seqZ in Hj.
    apply bool_decide_spec, Hs; lia.
Qed.

Section chunk_loop_facts.
Variable counter : str → Z.
Variable rec : str → Z → callable → bool → Z → result (list str).
Variables (splits : list str) (splitter : str) (w : bool) (chunk_size : Z).
Variables (tc : callable) (memoize : bool) (depth : Z).

(** The rule for the loop of [chunk]: a property of the index, the chunks
    and the skips that holds at the start, is kept when a split is skipped
    and is kept by a turn, holds of what the loop returns. *)
Lemma chunk_loop_inv (Inv : Z → list str → gset Z → Prop) :
  (∀ i chunks skips,
     0 ≤ i < len splits → Inv i chunks skips → i ∈ skips → Inv (i + 1) chunks skips) →
  (∀ i split rest chunks skips chunks1 skips1 chunks2,
     0 ≤ i → drop (Z.to_nat i) splits = split :: rest →
     Inv i chunks skips → i ∉ skips →
     chunk_or_merge (call_pure counter) rec splits splitter chunk_size tc memoize depth
       i split chunks skips = Ok (chunks1, skips1) →
     attach_splitter (call_pure counter) splits splitter w chunk_size tc i chunks1 skips1
       = Ok chunks2 →
     Inv (i + 1) chunks2 skips1) →
  ∀ rest i chunks skips r,
    0 ≤ i ≤ len splits → drop (Z.to_nat i) splits = rest → Inv i chunks skips →
    chunk_loop (call_pure counter) rec splits splitter w chunk_size tc memoize depth
      rest i chunks skips = Ok r →
    ∃ skips', Inv (len splits) r skips'.
Proof.
  intros Hskip Hturn rest. induction rest as [|split rest IH]; intros i chunks skips r Hi Hd HI.
  - simpl. intros [= <-]. exists skips.
    assert (len splits = i) as ->; [| done].
    apply (f_equal length) in Hd. rewrite length_drop in Hd. simpl in Hd.
    unfold len in *. lia.
  - assert (Z.to_nat i < length splits)%nat as Hlt.
    { apply (f_equal length) in Hd. rewrite length_drop in Hd. simpl in Hd. lia. }
    assert (drop (Z.to_nat (i + 1)) splits = rest) as Hd'.
    { replace (Z.to_nat (i + 1)) with (Z.to_nat i + 1)%nat by lia.
      rewrite <- drop_drop. by rewrite Hd. }
    cbn [chunk_loop]. case_bool_decide as Hs.
    + apply IH; [unfold len; lia | done |]. apply Hskip; [unfold len; lia | done | done].
    + destruct (chunk_or_merge _ _ _ _ _ _ _ _ _ _ _ _) as [[chunks1 skips1]|e] eqn:H1; [| done].
      cbn [mbind result_bind].
      destruct (attach_splitter _ _ _ _ _ _ _ _ _) as [chunks2|e] eqn:H2; [| done].
      cbn [mbind result_bind].
      apply IH; [unfold len; lia | done |]. eapply Hturn; [| done | done | done | done | done]. lia.
Qed.
End chunk_loop_facts.

Lemma chunk_body_inv counter rec text chunk_size tc memoize depth r :
  chunk_body (call_pure counter) memoised_pure rec text chunk_size tc memoize depth = Ok r →
  ∃ tc' splitter w splits chunks,
    _split_text text = Ok (splitter, w, splits) ∧
    chunk_loop (call_pure counter) rec splits splitter w chunk_size tc' memoize depth
      splits 0 [] ∅ = Ok chunks ∧
    r = if depth =? 0 then filter (λ c, c ≠ []) chunks else chunks.
Proof.
  unfold chunk_body.
  set (tc' := if (depth =? 0) && memoize then memoised_pure tc else mret tc).
  assert (∃ c, tc' = Ok c) as [c ->].
  { subst tc'. destruct (_ && _); by eexists. }
  cbn [mbind result_bind].
  destruct (split_text_total text) as (d & w & splits & -> & _).
  cbn [lift mbind result_bind mret result_ret].
  destruct (chunk_loop _ _ _ _ _ _ _ _ _ _ _ _ _) as [chunks|e] eqn:Hl; [| done].
  cbn [mbind result_bind]. intros H. exists c, d, w, splits, chunks.
  split; [done |]. split; [done |]. destruct (depth =? 0); by injection H.
Qed.

(** Without the caches: with the empty string within the chunk size, every
    chunk is within the chunk size or is a single character. *)
Lemma chunk_pure_within counter chunk_size limit text tc memoize depth r :
  counter [] ≤ chunk_size →
  chunk_pure counter limit text chunk_size tc memoize depth = Ok r →
  Forall (within counter chunk_size) r.
Proof.
  intros H0. revert text tc memoize depth r.
  induction limit as [|l IH]; intros text tc memoize depth r; [done |].
  cbn [chunk_pure]. intros (tc' & d & w & splits & chunks & Hs & Hl & ->)%chunk_body_inv.
  assert (Forall (within counter chunk_size) chunks) as Hc.
  { eapply (chunk_loop_inv _ _ _ _ _ _ _ _ _ (λ _ chunks _, Forall (within counter chunk_size) chunks))
      in Hl as [_ Hl]; [done | done | | pose proof (len_nonneg splits); lia | done | done].
    intros i split rest cks skips cks1 skips1 cks2 Hi Hd HI _ H1 H2.
    assert (Forall (within counter chunk_size) cks1) as HI1.
    { apply chunk_or_merge_inv in H1 as [(_ & sub & Hsub & -> & _) | (Hsp & m & new & Hm & -> & _)].
      - apply Forall_app. split; [done |]. by eapply IH.
      - apply Forall_app. split; [done |]. apply Forall_singleton. left.
        by eapply merge_splits_within. }
    apply attach_splitter_inv in H2 as [[_ ->] | (Hw & init & last & -> & [[Hle ->] | [_ ->]])].
    - done.
    - apply Forall_app in HI1 as [HI1 _]. apply Forall_app. split; [done |].
      apply Forall_singleton. by left.
    - apply Forall_app. split; [done |]. apply Forall_singleton. right.
      apply attach_wanted_semantic in Hw as ->. by eapply split_text_semantic. }
  destruct (depth =? 0); [| done].
  rewrite Forall_forall in *. intros c [_ Hin]%list_elem_of_filter. by apply Hc.
Qed.

Section limit_facts.
Variable counter : str → Z.
Variables rec rec' : str → Z → callable → bool → Z → result (list str).
Hypothesis rec_settles : ∀ text cs tc memoize depth,
  settles (rec text cs tc memoize depth) (rec' text cs tc memoize depth).

Lemma chunk_loop_settles splits splitter w chunk_size tc memoize depth rest i chunks skips :
  settles
    (chunk_loop (call_pure counter) rec splits splitter w chunk_size tc memoize depth
       rest i chunks skips)
    (chunk_loop (call_pure counter) rec' splits splitter w chunk_size tc memoize depth
       rest i chunks skips).
Proof.
  revert i chunks skips. induction rest as [|split rest IH]; intros i chunks skips.
  { apply settles_refl. }
  cbn [chunk_loop]. destruct (bool_decide _); [apply IH |].
  apply settles_bind.
  - unfold chunk_or_merge. rewrite !call_pure_bind.
    destruct (chunk_size <? _); [| apply settles_refl].
    apply settles_bind; [apply rec_settles | intros; apply settles_refl].
  - intros [chunks1 skips1]. apply settles_bind; [apply settles_refl |].
    intros chunks2. apply IH.
Qed.

Lemma chunk_body_settles text chunk_size tc memoize depth :
  settles
    (chunk_body (call_pure counter) memoised_pure rec text chunk_size tc memoize depth)
    (chunk_body (call_pure counter) memoised_pure rec' text chunk_size tc memoize depth).
Proof.
  unfold chunk_body. apply settles_bind; [apply settles_refl |]. intros tc'.
  apply settles_bind; [apply settles_refl |]. intros [[d w] splits].
  apply settles_bind; [apply chunk_loop_settles | intros; apply settles_refl].
Qed.
End limit_facts.

(** Without the caches: a larger limit on nested calls changes nothing
    once the limit is large enough not to be hit. *)
Lemma chunk_pure_settles counter l l' text chunk_size tc memoize depth :
  (l ≤ l')%nat →
  settles (chunk_pure counter l text chunk_size tc memoize depth)
          (chunk_pure counter l' text chunk_size tc memoize depth).
Proof.
  revert l' text chunk_size tc memoize depth.
  induction l as [|l IH]; intros l' text chunk_size tc memoize depth Hl; [by left |].
  destruct l' as [|l']; [lia |]. cbn [chunk_pure].
  apply chunk_body_settles. intros. apply IH. lia.
Qed.

Section irrelevance.
Variable counter : str → Z.

(** Without the caches it does not matter which callable counts. *)
Lemma merge_loop_callable tc tc' turns splits chunk_size splitter cum average low high :
  merge_loop (call_pure counter) turns splits chunk_size splitter tc cum average low high =
  merge_loop (call_pure counter) turns splits chunk_size splitter tc' cum average low high.
Proof.
  revert average low high. induction turns as [|k IH]; intros average low high; [done |].
  cbn [merge_loop]. destruct (low <? high); [| done].
  apply result_bind_ext. intros x. rewrite !call_pure_bind.
  apply result_bind_ext. intros c. apply result_bind_ext. intros average'.
  destruct (chunk_size <? _); apply IH.
Qed.

Lemma merge_splits_callable tc tc' splits chunk_size splitter :
  merge_splits (call_pure counter) splits chunk_size splitter tc =
  merge_splits (call_pure counter) splits chunk_size splitter tc'.
Proof. rewrite !merge_splits_pure. by rewrite (merge_loop_callable tc tc'). Qed.

Lemma chunk_loop_callable rec tc tc' memoize memoize' splits splitter w chunk_size depth
    rest i chunks skips :
  (∀ text cs d, rec text cs tc memoize d = rec text cs tc' memoize' d) →
  chunk_loop (call_pure counter) rec splits splitter w chunk_size tc memoize depth
    rest i chunks skips =
  chunk_loop (call_pure counter) rec splits splitter w chunk_size tc' memoize' depth
    rest i chunks skips.
Proof.
  intros Hrec. revert i chunks skips.
  induction rest as [|split rest IH]; intros i chunks skips; [done |].
  cbn [chunk_loop]. destruct (bool_decide _); [apply IH |].
  assert (chunk_or_merge (call_pure counter) rec splits splitter chunk_size tc memoize depth
            i split chunks skips =
          chunk_or_merge (call_pure counter) rec splits splitter chunk_size tc' memoize' depth
            i split chunks skips) as ->.
  { unfold chunk_or_merge. rewrite !call_pure_bind.
    destruct (chunk_size <? _); [by rewrite Hrec |].
    by rewrite (merge_splits_callable tc tc'). }
  apply result_bind_ext. intros [chunks1 skips1].
  assert (attach_splitter (call_pure counter) splits splitter w chunk_size tc i chunks1 skips1 =
          attach_splitter (call_pure counter) splits splitter w chunk_size tc' i chunks1 skips1)
    as -> by done.
  apply result_bind_ext. intros chunks2. apply IH.
Qed.

Lemma chunk_pure_callable limit text chunk_size tc tc' memoize memoize' depth :
  chunk_pure counter limit text chunk_size tc memoize depth =
  chunk_pure counter limit text chunk_size tc' memoize' depth.
Proof.
  revert text chunk_size tc tc' memoize memoize' depth.
  induction limit as [|l IH]; intros text chunk_size tc tc' memoize memoize' depth; [done |].
  cbn [chunk_pure]. unfold chunk_body.
  set (m := if (depth =? 0) && memoize then _ else _).
  set (m' := if (depth =? 0) && memoize' then _ else _).
  assert (∃ c, m = Ok c) as [c ->]
    by (subst m; destruct ((depth =? 0) && memoize); by eexists).
  assert (∃ c', m' = Ok c') as [c' ->]
    by (subst m'; destruct ((depth =? 0) && memoize'); by eexists).
  cbn [mbind result_bind]. apply result_bind_ext. intros [[d w] splits].
  rewrite (chunk_loop_callable (chunk_pure counter l) c c' memoize memoize'); [done |].
  intros. apply IH.
Qed.
End irrelevance.

Lemma chunk_pure_character_recursion limit tc memoize depth :
  chunk_pure two_per_character limit [97%N] 1 tc memoize depth = Raise RecursionError.
Proof.
  revert tc memoize depth. induction limit as [|l IH]; intros tc memoize depth; [done |].
  cbn [chunk_pure]. unfold chunk_body.
  destruct ((depth =? 0) && memoize); cbn; by rewrite IH.
Qed.

(** ** Chunks in order, without the caches *)

Lemma in_order_gap_l gap chunks text : in_order chunks text → in_order chunks (gap ++ text).
Proof.
  intros [t | g c cs t H]; [constructor |].
  rewrite app_assoc. by constructor.
Qed.

Lemma in_order_gap_r gap chunks text : in_order chunks text → in_order chunks (text ++ gap).
Proof.
  induction 1 as [t | g c cs t H IH]; [constructor |].
  rewrite <- !app_assoc. by constructor.
Qed.

Lemma in_order_app xs ys t1 t2 :
  in_order xs t1 → in_order ys t2 → in_order (xs ++ ys) (t1 ++ t2).
Proof.
  induction 1 as [t | g c cs t H IH]; intros Hy; simpl.
  - by apply in_order_gap_l.
  - rewrite <- !app_assoc. constructor. by apply IH.
Qed.

Lemma in_order_filter (P : str → Prop) `{!∀ c, Decision (P c)} chunks text :
  in_order chunks text → in_order (filter P chunks) text.
Proof.
  induction 1 as [t | g c cs t Hcs IH]; [constructor |].
  rewrite filter_cons. destruct (decide (P c)).
  - by constructor.
  - rewrite app_assoc. by apply in_order_gap_l.
Qed.

Lemma in_order_singleton c : in_order [c] c.
Proof.
  rewrite <- (app_nil_r c) at 2. apply (in_order_cons [] c [] []). constructor.
Qed.

Lemma in_order_contains chunks text :
  in_order chunks text → Forall (λ c, contains c text = true) chunks.
Proof.
  induction 1 as [t | g c cs t H IH]; [constructor |].
  constructor; [apply contains_occurrence |].
  eapply Forall_impl; [exact IH |]. intros s Hs. simpl in Hs.
  rewrite app_assoc. by apply contains_app_r.
Qed.

Lemma ends_with_in_order chunks text : ends_with chunks text → in_order chunks text.
Proof.
  intros (init & c & before & -> & -> & H). apply in_order_app; [done |].
  apply in_order_singleton.
Qed.

Lemma ends_with_app xs ys t1 t2 :
  in_order xs t1 → ends_with ys t2 → ends_with (xs ++ ys) (t1 ++ t2).
Proof.
  intros Hx (init & c & before & -> & -> & H).
  exists (xs ++ init), c, (t1 ++ before). rewrite !app_assoc.
  split; [done |]. split; [done |]. by apply in_order_app.
Qed.

Lemma ends_with_snoc xs t c : in_order xs t → ends_with (xs ++ [c]) (t ++ c).
Proof. intros H. by exists xs, c, t. Qed.

Lemma ends_with_extend init c t d :
  ends_with (init ++ [c]) t → ends_with (init ++ [c ++ d]) (t ++ d).
Proof.
  intros (init' & c' & before & [-> ->]%app_inj_tail & -> & H).
  exists init', (c' ++ d), before. by rewrite app_assoc.
Qed.

Section in_order_facts.
Variables (splits : list str) (splitter : str) (w : bool).

Lemma ends_with_advance i m chunks piece_chunks :
  0 ≤ i → 1 ≤ m → i + m ≤ len splits →
  (i = 0 → chunks = []) →
  (0 < i → ends_with chunks (consumed splits splitter w i)) →
  ends_with piece_chunks (join splitter (take (Z.to_nat m) (drop (Z.to_nat i) splits))) →
  ends_with (chunks ++ piece_chunks) (join splitter (take (Z.to_nat (i + m)) splits)).
Proof.
  intros Hi Hm Hn H0 Hpos Hp. destruct (decide (i = 0)) as [-> | Hne].
  { rewrite H0 by done. by rewrite drop_0 in Hp. }
  specialize (Hpos ltac:(lia)). apply ends_with_in_order in Hpos.
  unfold consumed in Hpos. destruct (Z.ltb_spec i (len splits)); [| lia].
  replace (Z.to_nat (i + m)) with (Z.to_nat i + Z.to_nat m)%nat by lia.
  rewrite <- take_take_drop. rewrite join_app.
  - rewrite app_assoc. apply ends_with_app; [| done].
    destruct w; [| done]. rewrite app_nil_r in Hpos. by apply in_order_gap_r.
  - intros Ht%(f_equal length). rewrite length_take in Ht. unfold len in *. simpl in Ht. lia.
  - intros Ht%(f_equal length). rewrite length_take, length_drop in Ht.
    unfold len in *. simpl in Ht. lia.
Qed.

Lemma ends_with_attach counter chunk_size tc i nxt chunks1 skips1 chunks2 :
  0 ≤ i < nxt → nxt ≤ len splits →
  (∀ j, i < j → j ∈ skips1 ↔ j < nxt) →
  ends_with chunks1 (join splitter (take (Z.to_nat nxt) splits)) →
  attach_splitter (call_pure counter) splits splitter w chunk_size tc i chunks1 skips1
    = Ok chunks2 →
  ends_with chunks2 (consumed splits splitter w nxt).
Proof.
  intros Hi Hn Hs He Ha. unfold consumed.
  apply attach_splitter_inv in Ha.
  rewrite (attach_wanted_spec splits w i skips1 nxt) in Ha by (done || lia).
  destruct Ha as [[Hw ->] | (Hw & init & last & -> & Hc)].
  - destruct w; [by rewrite app_nil_r |]. simpl in Hw. rewrite Hw. by rewrite app_nil_r.
  - apply andb_true_iff in Hw as [Hw ->]. apply negb_true_iff in Hw. rewrite Hw.
    destruct Hc as [[_ ->] | [_ ->]].
    + by apply ends_with_extend.
    + by apply ends_with_snoc, ends_with_in_order.
Qed.
End in_order_facts.

Section turn.
Variable counter : str → Z.
Variable rec : str → Z → callable → bool → Z → result (list str).
Variables (splits : list str) (splitter : str) (w : bool) (chunk_size : Z).
Variables (tc : callable) (memoize : bool) (depth : Z).

(** The first half of a turn at index [i], to which the splits before are
    consumed, consumes the split at [i] and some more, marks those to be
    skipped, and leaves chunks that end where they end. *)
Lemma in_order_or_merge i split rest chunks skips chunks1 skips1 :
  counter [] ≤ chunk_size →
  (∀ sub, chunk_size < counter split →
          rec split chunk_size tc memoize (depth + 1) = Ok sub → ends_with sub split) →
  0 ≤ i → drop (Z.to_nat i) splits = split :: rest →
  (i = 0 → chunks = []) →
  (0 < i → ends_with chunks (consumed splits splitter w i)) →
  (∀ j, i ≤ j → j ∈ skips ↔ j < i) →
  chunk_or_merge (call_pure counter) rec splits splitter chunk_size tc memoize depth
    i split chunks skips = Ok (chunks1, skips1) →
  ∃ m, 1 ≤ m ∧ i + m ≤ len splits ∧
       (∀ j, i < j → j ∈ skips1 ↔ j < i + m) ∧
       ends_with chunks1 (join splitter (take (Z.to_nat (i + m)) splits)).
Proof.
  intros H0 Hrec Hi Hd Hnil Hpos Hsk H1.
  assert (i + 1 ≤ len splits) as Hlen.
  { apply (f_equal length) in Hd. rewrite length_drop in Hd. simpl in Hd. unfold len. lia. }
  apply chunk_or_merge_inv in H1
    as [(Hc & sub & Hsub & -> & ->) | (Hc & m & new & Hm & -> & ->)].
  - exists 1. split; [done |]. split; [done |]. split.
    + intros j Hj. rewrite Hsk by lia. lia.
    + apply (ends_with_advance splits splitter w); [lia | done | done | done | done |].
      rewrite Hd. simpl. by apply Hrec.
  - rewrite slice_from_drop, Hd in Hm by done.
    apply merge_splits_first in Hm as (Hm & -> & _); [| done | done].
    assert (i + m ≤ len splits) as Him.
    { apply (f_equal length) in Hd. rewrite length_drop in Hd. unfold len in *. lia. }
    exists m. split; [lia |]. split; [done |]. split.
    + intros j Hj. rewrite elem_of_union, elem_of_list_to_set.
      unfold range. rewrite elem_of_seqZ, Hsk by lia. lia.
    + apply (ends_with_advance splits splitter w); [lia | lia | done | done | done |].
      rewrite Hd. apply (ends_with_snoc [] []). constructor.
Qed.

(** A whole turn keeps [in_order_inv]. *)
Lemma in_order_turn i split rest chunks skips chunks1 skips1 chunks2 :
  counter [] ≤ chunk_size →
  (∀ sub, chunk_size < counter split →
          rec split chunk_size tc memoize (depth + 1) = Ok sub → ends_with sub split) →
  0 ≤ i → drop (Z.to_nat i) splits = split :: rest →
  in_order_inv splits splitter w i chunks skips → i ∉ skips →
  chunk_or_merge (call_pure counter) rec splits splitter chunk_size tc memoize depth
    i split chunks skips = Ok (chunks1, skips1) →
  attach_splitter (call_pure counter) splits splitter w chunk_size tc i chunks1 skips1
    = Ok chunks2 →
  in_order_inv splits splitter w (i + 1) chunks2 skips1.
Proof.
  intros H0 Hrec Hi Hd (nxt & Hnxt & Hsk & Hnil & Hpos) Hout H1 H2.
  assert (nxt = i) as ->.
  { destruct (decide (i < nxt)) as [Hlt|]; [| lia]. by apply Hsk in Hlt. }
  eapply in_order_or_merge in H1 as (m & Hm & Him & Hsk1 & He1); try done.
  exists (i + m). split; [lia |]. split; [| split; [lia |]].
  - intros j Hj. apply Hsk1. lia.
  - intros _. eapply (ends_with_attach splits splitter w);
      [| | | exact He1 | exact H2]; [lia | lia | done].
Qed.

Lemma in_order_skip i chunks skips :
  in_order_inv splits splitter w i chunks skips → i ∈ skips →
  in_order_inv splits splitter w (i + 1) chunks skips.
Proof.
  intros (nxt & Hnxt & Hsk & Hnil & Hpos) Hin.
  exists nxt. apply Hsk in Hin; [| lia].
  split; [lia |]. split; [| done]. intros j Hj. apply Hsk. lia.
Qed.

Lemma in_order_start : in_order_inv splits splitter w 0 [] ∅.
Proof.
  pose proof (len_nonneg splits).
  exists 0. split; [lia |]. split; [| split; [done | lia]].
  intros j Hj. split; [set_solver | lia].
Qed.

Lemma in_order_end chunks skips :
  in_order_inv splits splitter w (len splits) chunks skips →
  in_order chunks (join splitter splits) ∧
  (splits ≠ [] → ends_with chunks (join splitter splits)).
Proof.
  intros (nxt & Hnxt & _ & Hnil & Hpos).
  pose proof (len_nonneg splits) as Hn. assert (nxt = len splits) as -> by lia.
  assert (splits ≠ [] → ends_with chunks (join splitter splits)) as Hends.
  { intros Hne. destruct Hpos as (init & c & before & -> & Ht & Hin).
    { destruct splits; [done | unfold len; simpl; lia]. }
    exists init, c, before. split; [done |]. split; [| done].
    rewrite <- Ht. unfold consumed. rewrite Z.ltb_irrefl. unfold len.
    rewrite Nat2Z.id, firstn_all. by destruct w; rewrite app_nil_r. }
  split; [| done]. destruct splits as [|p ps] eqn:E.
  - rewrite Hnil by done. constructor.
  - by apply ends_with_in_order, Hends.
Qed.

(** The loop returns when every turn does. *)
Lemma chunk_loop_total (Inv : Z → list str → gset Z → Prop) :
  (∀ i chunks skips,
     0 ≤ i < len splits → Inv i chunks skips → i ∈ skips → Inv (i + 1) chunks skips) →
  (∀ i split rest chunks skips,
     0 ≤ i → drop (Z.to_nat i) splits = split :: rest →
     Inv i chunks skips → i ∉ skips →
     ∃ chunks1 skips1 chunks2,
       chunk_or_merge (call_pure counter) rec splits splitter chunk_size tc memoize depth
         i split chunks skips = Ok (chunks1, skips1) ∧
       attach_splitter (call_pure counter) splits splitter w chunk_size tc i chunks1 skips1
         = Ok chunks2 ∧
       Inv (i + 1) chunks2 skips1) →
  ∀ rest i chunks skips,
    0 ≤ i ≤ len splits → drop (Z.to_nat i) splits = rest → Inv i chunks skips →
    ∃ r, chunk_loop (call_pure counter) rec splits splitter w chunk_size tc memoize depth
           rest i chunks skips = Ok r.
Proof.
  intros Hskip Hturn rest. induction rest as [|split rest IH]; intros i chunks skips Hi Hd HI.
  { by exists chunks. }
  assert (Z.to_nat i < length splits)%nat as Hlt.
  { apply (f_equal length) in Hd. rewrite length_drop in Hd. simpl in Hd. lia. }
  assert (drop (Z.to_nat (i + 1)) splits = rest) as Hd'.
  { replace (Z.to_nat (i + 1)) with (Z.to_nat i + 1)%nat by lia.
    rewrite <- drop_drop. by rewrite Hd. }
  cbn [chunk_loop]. case_bool_decide as Hs.
  - apply IH; [unfold len; lia | done |]. apply Hskip; [unfold len; lia | done | done].
  - destruct (Hturn i split rest chunks skips) as (c1 & s1 & c2 & -> & H2 & HI2);
      [lia | done | done | done |].
    cbn [mbind result_bind]. rewrite H2. cbn [mbind result_bind].
    apply IH; [unfold len; lia | done | done].
Qed.
End turn.

Lemma chunk_pure_in_order counter chunk_size limit text tc memoize depth r :
  counter [] ≤ chunk_size → 0 ≤ depth →
  chunk_pure counter limit text chunk_size tc memoize depth = Ok r →
  in_order r text ∧ (depth ≠ 0 → text ≠ [] → ends_with r text).
Proof.
  intros H0. revert text tc memoize depth r.
  induction limit as [|l IH]; intros text tc memoize depth r Hdepth; [done |].
  cbn [chunk_pure]. intros (tc' & d & w & splits & chunks & Hs & Hl & ->)%chunk_body_inv.
  assert (join d splits = text) as Hjoin.
  { by eapply split_text_spec_join, split_text_inv. }
  pose proof (len_nonneg splits) as Hn.
  eapply (chunk_loop_inv _ _ _ _ _ _ _ _ _ (in_order_inv splits d w))
    in Hl as [skips [Hord Hends]%in_order_end]; [| | | lia | done |].
  - rewrite Hjoin in Hord, Hends.
    destruct (Z.eqb_spec depth 0) as [-> | Hd].
    + split; [by apply in_order_filter | done].
    + split; [done |]. intros _ Ht. apply Hends. intros ->. by rewrite <- Hjoin in Ht.
  - intros. by apply in_order_skip.
  - intros i split rest cks skips cks1 skips1 cks2 Hi Hd HI Hout H1 H2.
    eapply in_order_turn; try done.
    intros sub Hc Hsub. eapply IH; [| exact Hsub | lia |]; [lia |].
    intros ->. lia.
  - apply in_order_start.
Qed.

(** Without the caches: a well-behaved counter and a limit on nested calls
    above the length of the text make [chunk] return. *)
Lemma chunk_pure_total counter chunk_size limit text tc memoize depth :
  well_behaved counter chunk_size → 0 ≤ depth →
  len text < float_overflow → (length text < limit)%nat →
  ∃ r, chunk_pure counter limit text chunk_size tc memoize depth = Ok r.
Proof.
  intros (H0 & H1 & Hnz & Hcs). revert text tc memoize depth.
  induction limit as [|l IH]; intros text tc memoize depth Hdepth Htext Hl; [lia |].
  cbn [chunk_pure]. unfold chunk_body.
  set (m := if (depth =? 0) && memoize then _ else _).
  assert (∃ c, m = Ok c) as [tc' ->]
    by (subst m; destruct ((depth =? 0) && memoize); by eexists).
  cbn [mbind result_bind].
  destruct (split_text_total text) as (d & w & splits & Hs & _). rewrite Hs.
  cbn [lift mbind result_bind mret result_ret].
  assert (join d splits = text) as Hjoin.
  { by eapply split_text_spec_join, split_text_inv. }
  pose proof (len_nonneg splits) as Hn.
  destruct (chunk_loop_total counter (chunk_pure counter l) splits d w chunk_size
              tc' memoize depth (in_order_inv splits d w)) with
    (rest := splits) (i := 0) (chunks := @nil str) (skips := (∅ : gset Z))
    as [chunks ->]; [| | lia | done | apply in_order_start |].
  - intros. by apply in_order_skip.
  - intros i split rest cks skips Hi Hd HI Hout.
    assert (split ∈ splits) as Hin.
    { apply (list_elem_of_lookup_2 _ (Z.to_nat i)).
      rewrite <- (take_drop (Z.to_nat i) splits) at 1. 
      rewrite Hd. rewrite lookup_app_r by (rewrite length_take; lia).
      rewrite length_take.
      replace (Z.to_nat i - Z.to_nat i `min` length splits)%nat with 0%nat; [done |].
      apply (f_equal length) in Hd. rewrite length_drop in Hd. simpl in Hd. lia. }
    assert (Hrec : ∀ sub, chunk_size < counter split →
              chunk_pure counter l split chunk_size tc' memoize (depth + 1) = Ok sub →
              ends_with sub split).
    { intros sub Hc Hsub. eapply chunk_pure_in_order; [| | exact Hsub | lia |]; [done | lia |].
      intros ->. lia. }
    assert (∃ cks1 skips1,
      chunk_or_merge (call_pure counter) (chunk_pure counter l) splits d chunk_size tc'
        memoize depth i split cks skips = Ok (cks1, skips1)) as (cks1 & skips1 & Hom).
    { unfold chunk_or_merge. rewrite call_pure_bind.
      destruct (Z.ltb_spec chunk_size (counter split)) as [Hc|Hc].
      - destruct (split_text_shorter _ _ _ _ _ Hs Hin) as [[c ->] | Hlen].
        { specialize (H1 c). lia. }
        destruct (IH split tc' memoize (depth + 1)) as [sub ->];
          [lia | unfold len in *; lia | lia |].
        by eexists _, _.
      - destruct (merge_splits_total counter (slice_from splits i) chunk_size d tc')
          as (m' & t & ->); [done | done | | by eexists _, _].
        rewrite slice_from_drop by done.
        pose proof (sumZ_drop_le splits (Z.to_nat i)).
        pose proof (sumZ_len_join d splits). rewrite Hjoin in *. lia. }
    exists cks1, skips1.
    assert (cks1 ≠ []) as Hne.
    { destruct HI as (nxt & Hnxt & Hsk & Hnil & Hpos).
      assert (nxt = i) as ->.
      { destruct (decide (i < nxt)) as [Hlt|]; [| lia]. by apply Hsk in Hlt. }
      eapply in_order_or_merge in Hom as (m' & _ & _ & _ & (init & c & _ & -> & _));
        try done.
      by destruct init. }
    destruct (attach_splitter_total counter splits d w chunk_size tc' i cks1 skips1 Hne)
      as [cks2 Ha].
    exists cks2. split; [done |]. split; [done |]. by eapply in_order_turn.
  - cbn [mbind result_bind]. destruct (depth =? 0); by eexists.
Qed.

(** ** The caches change no result *)

Section refinement.
Variable counter : str → Z.

Lemma no_caches_ok : caches_ok counter no_caches.
Proof. split; intros *; simpl; by rewrite lookup_empty. Qed.

Lemma refines_ret {A} (a : A) : refines counter (mret a) (Ok a).
Proof. intros σ H. by exists σ. Qed.

Lemma refines_lift {A} (r : result A) : refines counter (lift r) (lift r).
Proof. intros σ H. exists σ. by destruct r. Qed.

Lemma refines_bind {A B} (m : ST A) p (f : A → ST B) g :
  refines counter m p → (∀ a, p = Ok a → refines counter (f a) (g a)) →
  refines counter (m ≫= f) (p ≫= g).
Proof.
  intros Hm Hf σ H. destruct (Hm σ H) as (σ1 & Hr & H1).
  unfold mbind at 1, ST_bind. rewrite Hr. destruct p as [a|e].
  - by apply Hf.
  - by exists σ1.
Qed.

Lemma refines_call c s : refines counter (call counter c s) (call_pure counter c s).
Proof.
  intros σ [Ht Hc]. destruct c; simpl.
  - by exists σ.
  - destruct (token_cache σ !! s) as [n|] eqn:Hs.
    + exists σ. by rewrite (Ht _ _ Hs).
    + eexists. split; [done |]. split; simpl; [| done].
      intros s' n [[-> <-] | [_ ?]]%lookup_insert_Some; [done | by apply Ht].
Qed.

Lemma refines_merge_loop turns splits chunk_size splitter tc cum average low high :
  refines counter
    (merge_loop (call counter) turns splits chunk_size splitter tc cum average low high)
    (merge_loop (call_pure counter) turns splits chunk_size splitter tc cum average low high).
Proof.
  revert average low high. induction turns as [|k IH]; intros average low high.
  { apply refines_ret. }
  cbn [merge_loop]. destruct (low <? high); [| apply refines_ret].
  apply refines_bind; [apply refines_lift |]. intros x _.
  apply refines_bind; [apply refines_call |]. intros tokens _.
  apply refines_bind; [apply refines_lift |]. intros c _.
  apply refines_bind.
  { destruct (c =? 0); [apply refines_ret | apply refines_lift]. }
  intros average' _. destruct (chunk_size <? tokens); apply IH.
Qed.

Lemma refines_merge_splits splits chunk_size splitter tc :
  refines counter
    (merge_splits (call counter) splits chunk_size splitter tc)
    (merge_splits (call_pure counter) splits chunk_size splitter tc).
Proof.
  unfold merge_splits.
  apply refines_bind; [apply refines_lift |]. intros last _.
  apply refines_bind; [apply refines_merge_loop |]. intros low _.
  apply refines_ret.
Qed.

Lemma refines_attach_splitter splits splitter w chunk_size tc i chunks skips :
  refines counter
    (attach_splitter (call counter) splits splitter w chunk_size tc i chunks skips)
    (attach_splitter (call_pure counter) splits splitter w chunk_size tc i chunks skips).
Proof.
  unfold attach_splitter. destruct (_ && _); [| apply refines_ret].
  apply refines_bind; [apply refines_lift |]. intros last _.
  apply refines_bind; [apply refines_call |]. intros tokens _.
  destruct (tokens <=? chunk_size); apply refines_ret.
Qed.

Lemma refines_upto_const {A} (m : ST A) p :
  refines counter m p → refines_upto counter m (λ _, p).
Proof.
  intros Hm σ H. destruct (Hm σ H) as (σ' & ? & ?). exists p, σ'.
  split; [done |]. split; [done |]. right. by exists 0%nat.
Qed.

Lemma refines_upto_bind {A B} (m : ST A) p (f : A → ST B) g :
  refines_upto counter m p → (∀ a, refines_upto counter (f a) (g a)) →
  refines_upto counter (m ≫= f) (λ l, p l ≫= λ a, g a l).
Proof.
  intros Hm Hf σ H. destruct (Hm σ H) as (r & σ1 & Hr & H1 & Hp).
  unfold mbind at 1, ST_bind. rewrite Hr. destruct r as [a|e].
  - destruct (Hf a σ1 H1) as (r2 & σ2 & Hr2 & H2 & Hp2).
    exists r2, σ2. split; [done |]. split; [done |].
    destruct Hp as [? | [L HL]]; [done |].
    destruct Hp2 as [? | [L2 HL2]]; [by left | right].
    exists (L `max` L2)%nat. intros l Hl. rewrite HL by lia. apply HL2. lia.
  - exists (Raise e), σ1. split; [done |]. split; [done |].
    destruct Hp as [[= ->] | [L HL]]; [by left | right].
    exists L. intros l Hl. by rewrite HL.
Qed.

Section with_rec.
Variable recS : str → Z → callable → bool → Z → ST (list str).
Variable recP : nat → str → Z → callable → bool → Z → result (list str).
Hypothesis rec_ok : ∀ text cs tc memoize depth,
  refines_upto counter (recS text cs tc memoize depth) (λ l, recP l text cs tc memoize depth).

Lemma refines_chunk_or_merge splits splitter chunk_size tc memoize depth i split chunks skips :
  refines_upto counter
    (chunk_or_merge (call counter) recS splits splitter chunk_size tc memoize depth
       i split chunks skips)
    (λ l, chunk_or_merge (call_pure counter) (recP l) splits splitter chunk_size tc memoize depth
       i split chunks skips).
Proof.
  unfold chunk_or_merge.
  apply (refines_upto_bind _ (λ _, _) _ (λ tokens l, _)).
  { apply refines_upto_const, refines_call. }
  intros tokens. destruct (chunk_size <? tokens).
  - apply (refines_upto_bind _ (λ l, _) _ (λ sub l, _)); [apply rec_ok |].
    intros sub. apply refines_upto_const, refines_ret.
  - apply refines_upto_const.
    apply refines_bind; [apply refines_merge_splits |].
    intros [m new] _. apply refines_ret.
Qed.

Lemma refines_chunk_loop splits splitter w chunk_size tc memoize depth rest i chunks skips :
  refines_upto counter
    (chunk_loop (call counter) recS splits splitter w chunk_size tc memoize depth
       rest i chunks skips)
    (λ l, chunk_loop (call_pure counter) (recP l) splits splitter w chunk_size tc memoize depth
       rest i chunks skips).
Proof.
  revert i chunks skips. induction rest as [|split rest IH]; intros i chunks skips.
  { apply (refines_upto_const _ (Ok chunks)), refines_ret. }
  cbn [chunk_loop]. destruct (bool_decide _); [apply IH |].
  apply (refines_upto_bind _ (λ l, _) _ (λ cs l, _)); [apply refines_chunk_or_merge |].
  intros [chunks1 skips1].
  apply (refines_upto_bind _ (λ _, _) _ (λ chunks2 l, _)).
  { apply refines_upto_const, refines_attach_splitter. }
  intros chunks2. apply IH.
Qed.

Lemma refines_chunk_body text chunk_size tc memoize depth :
  refines_upto counter
    (chunk_body (call counter) memoised recS text chunk_size tc memoize depth)
    (λ l, chunk_body (call_pure counter) memoised_pure (recP l) text chunk_size tc memoize depth).
Proof.
  unfold chunk_body.
  apply (refines_upto_bind _ (λ _, _) _ (λ tc' l, _)).
  { apply refines_upto_const. destruct (_ && _); apply refines_ret. }
  intros tc'.
  apply (refines_upto_bind _ (λ _, _) _ (λ x l, _)).
  { apply refines_upto_const, refines_lift. }
  intros [[d w] splits].
  apply (refines_upto_bind _ (λ l, _) _ (λ chunks l, _)); [apply refines_chunk_loop |].
  intros chunks. apply refines_upto_const. destruct (depth =? 0); apply refines_ret.
Qed.
End with_rec.

Lemma refines_chunk limit text chunk_size tc memoize depth :
  refines_upto counter
    (chunk counter limit text chunk_size tc memoize depth)
    (λ l, chunk_pure counter l text chunk_size tc memoize depth).
Proof.
  revert text chunk_size tc memoize depth.
  induction limit as [|k IH]; intros text chunk_size tc memoize depth σ H.
  { exists (Raise RecursionError), σ. split; [done |]. split; [done | by left]. }
  cbn [chunk]. unfold cached.
  destruct (chunk_cache σ !! _) as [r|] eqn:Hhit.
  { exists (Ok r), σ. split; [done |]. split; [done |]. right.
    destruct H as [_ Hc]. by apply Hc. }
  destruct (refines_chunk_body (chunk counter k) (chunk_pure counter) IH
              text chunk_size tc memoize depth σ H) as (r & σ' & -> & H' & Hr).
  assert (r = Raise RecursionError ∨
          ∃ L, ∀ l, (L ≤ l)%nat → chunk_pure counter l text chunk_size tc memoize depth = r) as Hr'.
  { destruct Hr as [? | [L HL]]; [by left | right]. exists (S L).
    intros [|l] Hl; [lia |]. cbn [chunk_pure]. apply HL. lia. }
  destruct r as [r|e].
  - eexists _, _. split; [done |]. split; [| done].
    destruct H' as [Ht Hc]. split; [done |]. simpl.
    intros text' cs' tc' memoize' depth' r' [[Hk <-] | [_ ?]]%lookup_insert_Some; [| by eapply Hc].
    injection Hk as <- <- <- <- <-. by destruct Hr' as [? | ?].
  - by exists (Raise e), σ'.
Qed.
End refinement.

Section following.
Variable counter : str → Z.

Lemma follows_refines {A} (m : ST A) p : refines counter m p → follows counter m p.
Proof.
  intros Hm σ H. destruct (Hm σ H) as (σ' & ? & ?). exists p, σ'.
  split; [done |]. split; [done | apply settles_refl].
Qed.

Lemma follows_bind {A B} (m : ST A) p (f : A → ST B) g :
  follows counter m p → (∀ a, follows counter (f a) (g a)) →
  follows counter (m ≫= f) (p ≫= g).
Proof.
  intros Hm Hf σ H. destruct (Hm σ H) as (r & σ1 & Hr & H1 & Hp).
  unfold mbind at 1, ST_bind. rewrite Hr. destruct r as [a|e].
  - destruct (Hf a σ1 H1) as (r2 & σ2 & Hr2 & H2 & Hp2).
    exists r2, σ2. split; [done |]. split; [done |].
    destruct Hp as [-> | ->]; [by left | done].
  - exists (Raise e), σ1. split; [done |]. split; [done |].
    destruct Hp as [-> | ->]; [by left | by right].
Qed.

Section with_rec.
Variable recS : str → Z → callable → bool → Z → ST (list str).
Variable recP : str → Z → callable → bool → Z → result (list str).
Hypothesis rec_follows : ∀ text cs tc memoize depth,
  follows counter (recS text cs tc memoize depth) (recP text cs tc memoize depth).

Lemma follows_chunk_loop splits splitter w chunk_size tc memoize depth rest i chunks skips :
  follows counter
    (chunk_loop (call counter) recS splits splitter w chunk_size tc memoize depth
       rest i chunks skips)
    (chunk_loop (call_pure counter) recP splits splitter w chunk_size tc memoize depth
       rest i chunks skips).
Proof.
  revert i chunks skips. induction rest as [|split rest IH]; intros i chunks skips.
  { apply follows_refines, refines_ret. }
  cbn [chunk_loop]. destruct (bool_decide _); [apply IH |].
  apply follows_bind.
  - unfold chunk_or_merge.
    apply follows_bind; [apply follows_refines, refines_call |].
    intros tokens. destruct (chunk_size <? tokens).
    + apply follows_bind; [apply rec_follows |].
      intros sub. apply follows_refines, refines_ret.
    + apply follows_refines.
      apply refines_bind; [apply refines_merge_splits |].
      intros [m new] _. apply refines_ret.
  - intros [chunks1 skips1].
    apply follows_bind; [apply follows_refines, refines_attach_splitter |].
    intros chunks2. apply IH.
Qed.

Lemma follows_chunk_body text chunk_size tc memoize depth :
  follows counter
    (chunk_body (call counter) memoised recS text chunk_size tc memoize depth)
    (chunk_body (call_pure counter) memoised_pure recP text chunk_size tc memoize depth).
Proof.
  unfold chunk_body.
  apply follows_bind.
  { apply follows_refines. destruct (_ && _); apply refines_ret. }
  intros tc'. apply follows_bind; [apply follows_refines, refines_lift |].
  intros [[d w] splits].
  apply follows_bind; [apply follows_chunk_loop |].
  intros chunks. apply follows_refines. destruct (depth =? 0); apply refines_ret.
Qed.
End with_rec.

(** With the caches [chunk] gets at least as far as without them. *)
Lemma follows_chunk limit text chunk_size tc memoize depth :
  follows counter
    (chunk counter limit text chunk_size tc memoize depth)
    (chunk_pure counter limit text chunk_size tc memoize depth).
Proof.
  revert text chunk_size tc memoize depth.
  induction limit as [|k IH]; intros text chunk_size tc memoize depth σ H.
  { exists (Raise RecursionError), σ. split; [done |]. split; [done | by left]. }
  destruct (refines_chunk counter (S k) text chunk_size tc memoize depth σ H)
    as (r & σ' & Hr & H' & _).
  exists r, σ'. split; [done |]. split; [done |].
  cbn [chunk] in Hr. unfold cached in Hr.
  destruct (chunk_cache σ !! _) as [r0|] eqn:Hhit.
  - injection Hr as <- <-. destruct H as [_ Hc].
    destruct (Hc _ _ _ _ _ _ Hhit) as [L HL].
    rewrite <- (HL (S k `max` L)%nat) by lia. apply chunk_pure_settles. lia.
  - destruct (follows_chunk_body (chunk counter k) (chunk_pure counter k) IH
                text chunk_size tc memoize depth σ H) as (r1 & σ1 & Hr1 & _ & Hs).
    rewrite Hr1 in Hr. cbn [chunk_pure].
    destruct r1 as [r1|e]; injection Hr as <- _; done.
Qed.
End following.

(** What the program returns is what the engine without caches returns. *)
Lemma chunk_returns counter limit text chunk_size tc memoize depth σ r σ' :
  caches_ok counter σ →
  chunk counter limit text chunk_size tc memoize depth σ = (r, σ') →
  caches_ok counter σ' ∧
  (r = Raise RecursionError ∨
   ∃ L, ∀ l, (L ≤ l)%nat → chunk_pure counter l text chunk_size tc memoize depth = r).
Proof.
  intros H Hr.
  destruct (refines_chunk counter limit text chunk_size tc memoize depth σ H)
    as (r0 & σ0 & Hr0 & ? & ?).
  rewrite Hr in Hr0. by injection Hr0 as <- <-.
Qed.

Lemma chunk_returns_ok counter limit text chunk_size tc memoize depth σ chunks σ' :
  caches_ok counter σ →
  chunk counter limit text chunk_size tc memoize depth σ = (Ok chunks, σ') →
  ∃ l, chunk_pure counter (S l) text chunk_size tc memoize depth = Ok chunks.
Proof.
  intros H Hr. destruct (chunk_returns _ _ _ _ _ _ _ _ _ _ H Hr) as [_ [? | [L HL]]]; [done |].
  exists L. apply HL. lia.
Qed.

(** A call of [chunk] leaves the caches good. *)
Lemma chunk_keeps_caches_ok counter limit text chunk_size tc memoize depth σ :
  caches_ok counter σ →
  caches_ok counter (snd (chunk counter limit text chunk_size tc memoize depth σ)).
Proof.
  intros H. destruct (chunk _ _ _ _ _ _ _ σ) as [r σ'] eqn:Hr.
  by destruct (chunk_returns _ _ _ _ _ _ _ _ _ _ H Hr).
Qed.

Lemma merge_splits_returns counter splits chunk_size splitter tc σ :
  caches_ok counter σ →
  fst (merge_splits (call counter) splits chunk_size splitter tc σ)
    = merge_splits (call_pure counter) splits chunk_size splitter tc.
Proof.
  intros H.
  destruct (refines_merge_splits counter splits chunk_size splitter tc σ H) as (σ' & -> & _).
  done.
Qed.

Lemma astronomic_nonneg s : 0 ≤ astronomic s.
Proof. unfold astronomic. repeat case_decide; lia. Qed.

(** * Two scenarios

    [chunk("a\n\nb\tc", 1, len)] is [["a", "b", "c"]], and the sentence
    ["The quick brown fox jumps over the lazy dog."] with at most six words
    to a chunk is cut after ["over"]. *)

Lemma chunk_paragraphs_then_tabs :
  fst (chunk characters 10 [97; 10; 10; 98; 9; 99]%N 1 Counter true 0 no_caches)
    = Ok [[97]; [98]; [99]]%N.
Proof. vm_compute. reflexivity. Qed.

Lemma chunk_six_words :
  fst (chunk words 10
         [84; 104; 101; 32; 113; 117; 105; 99; 107; 32; 98; 114; 111; 119; 110; 32;
          102; 111; 120; 32; 106; 117; 109; 112; 115; 32; 111; 118; 101; 114; 32;
          116; 104; 101; 32; 108; 97; 122; 121; 32; 100; 111; 103; 46]%N
         6 Counter true 0 no_caches)
    = Ok [[84; 104; 101; 32; 113; 117; 105; 99; 107; 32; 98; 114; 111; 119; 110; 32;
           102; 111; 120; 32; 106; 117; 109; 112; 115; 32; 111; 118; 101; 114];
          [116; 104; 101; 32; 108; 97; 122; 121; 32; 100; 111; 103; 46]]%N.
Proof. vm_compute. reflexivity. Qed.

(** * The claims *)

(** ** The splitter selector *)

(** C7. Whatever the fragment, [_split_text] returns a delimiter and
    pieces such that joining the pieces with the delimiter gives back the
    fragment; when no delimiter is found the delimiter is empty and the
    pieces are the characters of the fragment. *)
Theorem split_text_round_trip (text : str) :
  ∃ splitter splitter_is_whitespace splits,
    _split_text text = Ok (splitter, splitter_is_whitespace, splits) ∧
    join splitter splits = text ∧
    (splitter = [] → splits = chars text).
Proof.
  destruct (split_text_total text) as (d & w & ps & H & Hs).
  exists d, w, ps. split; [done |]. split; [by eapply split_text_spec_join |].
  intros ->. by inversion Hs.
Qed.

(** C5. On the fragment ["a\n\nb\rc"] the runs of newline characters are
    ["\n\n"] and ["\r"]; the longest is ["\n\n"], yet the delimiter chosen
    is ["\r"], the greatest in the order of strings. *)
Theorem split_text_newline_run_not_longest :
  let text := [97; 10; 10; 98; 13; 99]%N in
  findall is_newline text = [[10; 10]; [13]]%N ∧
  longest (findall is_newline text) = Some [10; 10]%N ∧
  _split_text text = Ok ([13]%N, true, [[97; 10; 10; 98]; [99]]%N).
Proof. repeat split; reflexivity. Qed.

(** ** The merge engine *)

(** C2, amended. When the prefixes of the pieces whose joined text is
    within the budget are exactly those of at most [k] pieces, no prefix
    with characters counts zero tokens, and the budget and the number of
    characters are in the range of the floats, [merge_splits] returns the
    pair of [k] and the first [k] pieces joined: the integer is the number
    of pieces merged, one more than the index of the last of them. *)
Theorem merge_splits_largest_prefix counter splits chunk_size splitter tc k σ :
  caches_ok counter σ →
  0 ≤ k ≤ len splits →
  (∀ j, 0 ≤ j ≤ len splits → probe counter splitter splits j ≤ chunk_size ↔ j ≤ k) →
  Z.abs chunk_size < float_overflow →
  sumZ (map len splits) < float_overflow →
  (∀ j, 0 ≤ j ≤ len splits → prefix_len splits j ≠ 0 → probe counter splitter splits j ≠ 0) →
  fst (merge_splits (call counter) splits chunk_size splitter tc σ)
    = Ok (k, join splitter (slice_to splits k)).
Proof.
  intros H Hk Hth Hcs Hsum Hnz. rewrite merge_splits_returns by done.
  by apply merge_splits_threshold.
Qed.

Lemma merge_splits_largest_prefix_witness :
  fst (merge_splits (call characters) [[97]; [98]]%N 1 [32%N] Counter no_caches)
    = Ok (1, [97%N]).
Proof.
  apply (merge_splits_largest_prefix characters [[97]; [98]]%N 1 [32%N] Counter 1 no_caches).
  - apply no_caches_ok.
  - by vm_compute.
  - intros j Hj.
    assert (j = 0 ∨ j = 1 ∨ j = 2) as [-> | [-> | ->]] by (change (len _) with 2 in Hj; lia);
      vm_compute; split; intros; congruence.
  - by vm_compute.
  - by vm_compute.
  - intros j Hj.
    assert (j = 0 ∨ j = 1 ∨ j = 2) as [-> | [-> | ->]] by (change (len _) with 2 in Hj; lia);
      vm_compute; congruence.
Defined.

(** On the pieces ["a"], ["b"] with one token per character and a budget of
    1 the largest prefix within the budget has 1 piece, and [merge_splits]
    returns the integer 1, not the index 0 of that piece.  With a counter
    that is not monotone in the prefix the search can miss the largest
    prefix: all three pieces are within the budget and one is returned. *)
Lemma merge_splits_returns_count :
  let splits := [[97]; [98]]%N in
  probe characters [32%N] splits 1 ≤ 1 ∧
  1 < probe characters [32%N] splits 2 ∧
  join [32%N] (slice_to splits 1) = [97%N] ∧
  fst (merge_splits (call characters) splits 1 [32%N] Counter no_caches) = Ok (1, [97%N]) ∧
  let splits3 := [[97]; [98]; [99]]%N in
  probe dipping [32%N] splits3 3 ≤ 1 ∧
  fst (merge_splits (call dipping) splits3 1 [32%N] Counter no_caches) = Ok (1, [97%N]).
Proof. vm_compute. repeat split; congruence. Qed.

(** C3, amended. For a non-empty list of pieces whose first piece alone,
    and every longer prefix, exceeds the budget while the empty string does
    not, [merge_splits] returns 0 and the empty text: no piece is merged. *)
Theorem merge_splits_first_oversized counter split rest chunk_size splitter tc σ :
  caches_ok counter σ →
  counter [] ≤ chunk_size →
  (∀ j, 1 ≤ j ≤ len (split :: rest) →
        chunk_size < probe counter splitter (split :: rest) j) →
  0 ≤ chunk_size < float_overflow →
  sumZ (map len (split :: rest)) < float_overflow →
  fst (merge_splits (call counter) (split :: rest) chunk_size splitter tc σ) = Ok (0, []).
Proof.
  intros H H0 Hover Hcs Hsum. rewrite merge_splits_returns by done.
  pose proof (len_nonneg (split :: rest)).
  rewrite (merge_splits_threshold counter (split :: rest) chunk_size splitter tc 0);
    [by rewrite slice_to_0 | lia | | lia | done |].
  - intros j Hj. destruct (decide (j = 0)) as [-> |].
    + unfold probe. rewrite slice_to_0. simpl. lia.
    + specialize (Hover j ltac:(lia)). lia.
  - intros j Hj Hp. destruct (decide (j = 0)) as [-> |].
    + unfold prefix_len in Hp. by rewrite slice_to_0 in Hp.
    + specialize (Hover j ltac:(lia)). lia.
Qed.

Lemma merge_splits_first_oversized_witness :
  fst (merge_splits (call characters) [[97; 98]]%N 1 [] Counter no_caches) = Ok (0, []).
Proof.
  apply (merge_splits_first_oversized characters [97; 98]%N [] 1 [] Counter no_caches).
  - apply no_caches_ok.
  - by vm_compute.
  - intros j Hj. assert (j = 1) as -> by (change (len _) with 1 in Hj; lia). by vm_compute.
  - by vm_compute.
  - by vm_compute.
Defined.

(** On the single piece ["ab"] with one token per character and a budget
    of 1, [merge_splits] returns the empty text, not the piece. *)
Lemma merge_splits_oversized_first_not_returned :
  let splits := [[97; 98]]%N in
  1 < characters [97; 98]%N ∧
  fst (merge_splits (call characters) splits 1 [] Counter no_caches) = Ok (0, []) ∧
  fst (merge_splits (call characters) splits 1 [] Counter no_caches) ≠ Ok (0, [97; 98]%N).
Proof. vm_compute. repeat split; congruence. Qed.

(** ** The orchestrator *)

(** X23. For every text and chunk size and every pure token counter that
    gives the empty string a count of at most the chunk size, every string
    in the list that the top-level [chunk] returns has a count of at most
    the chunk size or is a single character. *)
Theorem chunk_within_budget counter limit text chunk_size memoize σ chunks σ' :
  caches_ok counter σ →
  counter [] ≤ chunk_size →
  chunk counter limit text chunk_size Counter memoize 0 σ = (Ok chunks, σ') →
  Forall (within counter chunk_size) chunks.
Proof.
  intros H H0 Hr. destruct (chunk_returns_ok _ _ _ _ _ _ _ _ _ _ H Hr) as [l Hl].
  by eapply chunk_pure_within.
Qed.

Lemma chunk_within_budget_witness :
  Forall (within characters 1) [[97]; [46]; [98]]%N.
Proof.
  apply (chunk_within_budget characters 10 [97; 46; 98]%N 1 true no_caches _
           (snd (chunk characters 10 [97; 46; 98]%N 1 Counter true 0 no_caches))).
  - apply no_caches_ok.
  - by vm_compute.
  - vm_compute. reflexivity.
Defined.

(** C1. A chunk can be over the chunk size without being a single
    indivisible unit.  With a chunk size of 10, the pure and non-negative
    counter [astronomic] and the text ["a b c"]: the first probe of
    [merge_splits], on ["a b"], counts so many tokens that the average
    underflows to zero; the next probe is then the empty prefix, which is
    over the chunk size too, so the search ends at [low = 0], and
    [splits[:-1]], that is ["a b"], is returned as a chunk: [chunk] returns
    [["a b"; "b c"]], and ["a b"] has three characters and a count over the
    chunk size. *)
Lemma chunk_over_budget :
  (∀ s, 0 ≤ astronomic s) ∧
  fst (chunk astronomic 10 [97; 32; 98; 32; 99]%N 10 Counter true 0 no_caches)
    = Ok [[97; 32; 98]; [98; 32; 99]]%N ∧
  ¬ within astronomic 10 [97; 32; 98]%N.
Proof.
  split; [apply astronomic_nonneg |]. split; [vm_compute; reflexivity |].
  intros [H | H]; vm_compute in H; congruence.
Qed.

(** C4. With two tokens per character and a chunk size of 1, [chunk] on
    the one-character text ["a"] calls itself on ["a"] again and again: it
    raises [RecursionError] whatever the limit on nested calls, and never
    returns the character as a chunk. *)
Theorem chunk_oversized_character_recursion limit memoize σ :
  caches_ok two_per_character σ →
  fst (chunk two_per_character limit [97%N] 1 Counter memoize 0 σ) = Raise RecursionError.
Proof.
  intros H. destruct (chunk _ _ _ _ _ _ _ σ) as [r σ'] eqn:Hr.
  destruct (chunk_returns _ _ _ _ _ _ _ _ _ _ H Hr) as [_ [-> | [L HL]]]; [done |].
  rewrite <- (HL L) by lia. apply chunk_pure_character_recursion.
Qed.

Lemma chunk_oversized_character_recursion_witness :
  fst (chunk two_per_character 1000 [97%N] 1 Counter true 0 no_caches) = Raise RecursionError.
Proof. apply chunk_oversized_character_recursion, no_caches_ok. Defined.

(** On the one-character text ["."] the character is a splitter: the
    pieces are two empty strings, and the splitter is emitted as a chunk of
    its own although it is over the chunk size. *)
Lemma chunk_oversized_splitter_emitted :
  fst (chunk two_per_character 10 [46%N] 1 Counter true 0 no_caches) = Ok [[46%N]].
Proof. vm_compute. reflexivity. Qed.

(** X24. For every text and chunk size and every pure token counter that
    gives the empty string a count of at most the chunk size, every string
    in the list that [chunk] returns is a contiguous substring of the text,
    and the chunks occur in the text one after the other, left to right and
    without overlap. *)
Theorem chunk_in_order counter limit text chunk_size memoize σ chunks σ' :
  caches_ok counter σ →
  counter [] ≤ chunk_size →
  chunk counter limit text chunk_size Counter memoize 0 σ = (Ok chunks, σ') →
  Forall (λ c, contains c text = true) chunks ∧ in_order chunks text.
Proof.
  intros H H0 Hr. destruct (chunk_returns_ok _ _ _ _ _ _ _ _ _ _ H Hr) as [l Hl].
  apply chunk_pure_in_order in Hl as [Hl _]; [| done | done].
  split; [by apply in_order_contains | done].
Qed.

Lemma chunk_in_order_witness :
  Forall (λ c, contains c [97; 46; 98]%N = true) [[97]; [46]; [98]]%N ∧
  in_order [[97]; [46]; [98]]%N [97; 46; 98]%N.
Proof.
  apply (chunk_in_order characters 10 [97; 46; 98]%N 1 true no_caches _
           (snd (chunk characters 10 [97; 46; 98]%N 1 Counter true 0 no_caches))).
  - apply no_caches_ok.
  - by vm_compute.
  - vm_compute. reflexivity.
Defined.

(** C6. A chunk need not be a substring of the text.  With a chunk size
    of 10, the counter [astronomic] and the text ["a..b"]: [merge_splits]
    returns -1 and [splits[:-1]], that is ["a."], without marking the empty
    split as consumed; the splitter is put after it twice, once for each of
    the first two splits, and [chunk] returns [["a..."; "b"]], whose first
    chunk does not occur in the text. *)
Lemma chunk_not_substring :
  fst (chunk astronomic 10 [97; 46; 46; 98]%N 10 Counter true 0 no_caches)
    = Ok [[97; 46; 46; 46]; [98]]%N ∧
  contains [97; 46; 46; 46]%N [97; 46; 46; 98]%N = false.
Proof. split; vm_compute; reflexivity. Qed.

(** C8. For every text, every string in the list that the top-level
    [chunk] returns is non-empty. *)
Theorem chunk_no_empty_chunk counter limit text chunk_size memoize σ chunks σ' :
  caches_ok counter σ →
  chunk counter limit text chunk_size Counter memoize 0 σ = (Ok chunks, σ') →
  Forall (λ c, c ≠ []) chunks.
Proof.
  intros H Hr. destruct (chunk_returns_ok _ _ _ _ _ _ _ _ _ _ H Hr) as [l Hl].
  cbn [chunk_pure] in Hl.
  apply chunk_body_inv in Hl as (_ & _ & _ & _ & cks & _ & _ & ->).
  rewrite Forall_forall. by intros c [? _]%list_elem_of_filter.
Qed.

Lemma chunk_no_empty_chunk_witness : Forall (λ c : str, c ≠ []) [[97]]%N.
Proof.
  apply (chunk_no_empty_chunk characters 10 [32; 97]%N 1 true no_caches _
           (snd (chunk characters 10 [32; 97]%N 1 Counter true 0 no_caches))).
  - apply no_caches_ok.
  - vm_compute. reflexivity.
Defined.

(** C9. Two calls of [chunk] on the same text, chunk size and pure token
    counter, each with [memoize] set either way and each made with caches
    that hold only computed values (those left by the other call, for
    instance), end the same way: with the same list of chunks, or the same
    exception, unless one of them runs out of nested calls. *)
Theorem chunk_deterministic counter limit1 limit2 text chunk_size memoize1 memoize2 σ1 σ2 :
  caches_ok counter σ1 → caches_ok counter σ2 →
  let r1 := fst (chunk counter limit1 text chunk_size Counter memoize1 0 σ1) in
  let r2 := fst (chunk counter limit2 text chunk_size Counter memoize2 0 σ2) in
  r1 ≠ Raise RecursionError → r2 ≠ Raise RecursionError →
  r1 = r2.
Proof.
  intros H1 H2.
  destruct (chunk _ limit1 _ _ _ _ _ σ1) as [r1 σ1'] eqn:Hr1.
  destruct (chunk _ limit2 _ _ _ _ _ σ2) as [r2 σ2'] eqn:Hr2.
  simpl. intros Hn1 Hn2.
  destruct (chunk_returns _ _ _ _ _ _ _ _ _ _ H1 Hr1) as [_ [? | [L1 HL1]]]; [done |].
  destruct (chunk_returns _ _ _ _ _ _ _ _ _ _ H2 Hr2) as [_ [? | [L2 HL2]]]; [done |].
  rewrite <- (HL1 (L1 `max` L2)%nat) by lia. rewrite <- (HL2 (L1 `max` L2)%nat) by lia.
  apply chunk_pure_callable.
Qed.

Lemma chunk_deterministic_witness :
  let σ := snd (chunk characters 10 [97; 46; 98]%N 1 Counter true 0 no_caches) in
  fst (chunk characters 10 [97; 46; 98]%N 1 Counter true 0 no_caches) =
  fst (chunk characters 10 [97; 46; 98]%N 1 Counter false 0 σ).
Proof.
  apply (chunk_deterministic characters 10 10 [97; 46; 98]%N 1 true false no_caches
           (snd (chunk characters 10 [97; 46; 98]%N 1 Counter true 0 no_caches))).
  - apply no_caches_ok.
  - apply chunk_keeps_caches_ok, no_caches_ok.
  - vm_compute. discriminate.
  - vm_compute. discriminate.
Defined.

(** C10. With the token counter that counts no token, the text ["a"] and
    a chunk size of 1, [chunk] raises [ZeroDivisionError]: [merge_splits]
    divides the non-zero cumulative length by the token count 0. *)
Theorem chunk_division_by_zero :
  ∃ (counter : str → Z) (text : str) (chunk_size : Z),
    (∀ s, 0 ≤ counter s) ∧ text ≠ [] ∧ 1 ≤ chunk_size ∧
    (∀ c, c ≠ 0 → true_div c (counter text) = Raise ZeroDivisionError) ∧
    ∀ limit memoize,
      fst (chunk counter (S limit) text chunk_size Counter memoize 0 no_caches)
        = Raise ZeroDivisionError.
Proof.
  exists no_tokens, [97%N], 1. split; [done |]. split; [done |]. split; [done |].
  split; [done |]. intros limit []; vm_compute; reflexivity.
Qed.

(** X13. With a well-behaved counter, a text whose length is in the range of the
    floats and a limit on nested calls above that length, the top-level
    [chunk] returns a list of chunks, whatever the caches hold. *)
Theorem chunk_returns_normally counter limit text chunk_size memoize σ :
  caches_ok counter σ →
  well_behaved counter chunk_size →
  len text < float_overflow → (length text < limit)%nat →
  ∃ chunks σ', chunk counter limit text chunk_size Counter memoize 0 σ = (Ok chunks, σ').
Proof.
  intros H Hw Ht Hl.
  destruct (chunk_pure_total counter chunk_size limit text Counter memoize 0 Hw) as [r Hr];
    [done | done | done |].
  destruct (follows_chunk counter limit text chunk_size Counter memoize 0 σ H)
    as (r' & σ' & Hr' & _ & [Hs | Hs]); rewrite Hr in Hs; [done |].
  exists r, σ'. by rewrite Hs.
Qed.

(** * Further properties of the code *)

(** ** More on the splitter selector *)

Lemma runs_from_class cls s cur r :
  r ∈ runs_from cls cur s → forallb cls cur = true → forallb cls r = true.
Proof.
  revert cur. induction s as [|c s IH]; intros cur; simpl.
  - destruct cur; [set_solver |]. by intros ->%list_elem_of_singleton.
  - destruct (cls c) eqn:Hc.
    + intros Hr Hcur. apply (IH _ Hr). rewrite forallb_app, Hcur. simpl. by rewrite Hc.
    + destruct cur as [|x cur].
      * intros Hr _. by apply (IH _ Hr).
      * intros [-> | Hr]%elem_of_cons Hcur; [done | by apply (IH _ Hr)].
Qed.

(** When [_split_text] returns a splitter that is not empty, the splits are
    those of [text.split(splitter)] and the splitter occurs in the text. *)
Lemma split_text_found text splitter w splits :
  _split_text text = Ok (splitter, w, splits) → splitter ≠ [] →
  splits = split_from splitter 0 [] text ∧ ∃ a b, text = a ++ splitter ++ b.
Proof.
  intros Hs Hne.
  assert (Hrun : ∀ cls,
    match str_max (findall cls text) with
    | Raise e => Raise e
    | Ok splitter =>
        match split text splitter with
        | Raise e => Raise e
        | Ok splits => Ok (splitter, true, splits)
        end
    end = Ok (splitter, w, splits) →
    splits = split_from splitter 0 [] text ∧ ∃ a b, text = a ++ splitter ++ b).
  { intros cls H. destruct (str_max _) as [m|] eqn:Hm; [| done].
    apply str_max_elem in Hm. pose proof (runs_from_ne _ _ _ _ Hm) as Hm'.
    rewrite split_ok in H by done. injection H as <- _ <-.
    split; [done |]. by apply runs_from_occurs in Hm. }
  unfold _split_text in Hs.
  destruct (contains [10%N] text || contains [13%N] text); [by eapply Hrun |].
  destruct (contains [9%N] text); [by eapply Hrun |].
  destruct (search is_space text); [by eapply Hrun |].
  destruct (find _ _) as [d|] eqn:Hf.
  - destruct (splitters_ne _ _ Hf) as (c & -> & _).
    apply find_some in Hf as [_ Hc]. rewrite split_ok in Hs by done.
    injection Hs as <- _ <-. split; [done | by apply contains_inv].
  - by injection Hs as <-.
Qed.

Lemma split_from_without sep s cur :
  sep ≠ [] →
  (∀ u v, cur = u ++ v → v ≠ [] → starts_with sep (v ++ s) = false) →
  Forall (λ p, contains sep p = false) (split_from sep 0 cur s).
Proof.
  intros Hsep. remember (length s) as n eqn:Hn.
  revert s cur Hn. induction (lt_wf n) as [n _ IH]. intros s cur -> Hcur.
  assert (Hclosed : ∀ r, starts_with sep (sep ++ r) = true →
            (∀ u v, cur = u ++ v → v ≠ [] → starts_with sep (v ++ sep ++ r) = false) →
            contains sep cur = false).
  { intros r _ H. apply not_true_is_false. intros (a & b & ->)%contains_inv.
    specialize (H a (sep ++ b) eq_refl). rewrite <- !app_assoc, starts_with_app in H.
    destruct sep; [done |]. by specialize (H ltac:(done)). }
  destruct s as [|c s].
  - simpl. apply Forall_singleton. apply not_true_is_false.
    intros (a & b & ->)%contains_inv.
    specialize (Hcur a (sep ++ b) eq_refl). rewrite app_nil_r, starts_with_app in Hcur.
    destruct sep; [done |]. by specialize (Hcur ltac:(done)).
  - cbn [split_from]. destruct (starts_with sep (c :: s)) eqn:Hp.
    + apply starts_with_inv in Hp as [r Hr].
      destruct sep as [|a sep]; [done |]. simpl in Hr. injection Hr as -> ->.
      replace (length (a :: sep) - 1)%nat with (length sep) by (simpl; lia).
      rewrite split_from_skip. constructor.
      * apply (Hclosed r); [apply starts_with_app |]. intros u v Hu Hv.
        by apply (Hcur u v).
      * apply (IH (length r)); [simpl; rewrite ?length_app; lia | done |].
        intros u v Huv Hv. by destruct u, v.
    + apply (IH (length s)); [simpl; lia | done |].
      intros u v Huv Hv. destruct v as [|x v _] using rev_ind; [done |].
      rewrite app_assoc in Huv. apply app_inj_tail in Huv as [-> <-].
      rewrite <- app_assoc. simpl. destruct v as [|y v].
      * done.
      * by apply (Hcur u (y :: v)).
Qed.

Lemma find_first {A} (f : A → bool) l x :
  find f l = Some x →
  ∃ before after, l = before ++ x :: after ∧ f x = true ∧ forallb (λ y, negb (f y)) before = true.
Proof.
  induction l as [|y l IH]; [done |]. simpl. destruct (f y) eqn:Hy.
  - intros [= ->]. by exists [], l.
  - intros (before & after & -> & Hx & Hb)%IH.
    exists (y :: before), after. simpl. by rewrite Hy.
Qed.

Lemma find_none_all {A} (f : A → bool) l :
  find f l = None → forallb (λ y, negb (f y)) l = true.
Proof.
  induction l as [|y l IH]; [done |]. simpl. destruct (f y); [done |]. apply IH.
Qed.

(** Strings made of one character are ordered by their lengths. *)
Lemma str_ltb_same c a b :
  forallb (N.eqb c) a = true → forallb (N.eqb c) b = true →
  str_ltb a b = (length a <? length b)%nat.
Proof.
  revert b. induction a as [|x a IH]; intros [|y b]; simpl; try done.
  intros [->%N.eqb_eq Ha]%andb_true_iff [->%N.eqb_eq Hb]%andb_true_iff.
  rewrite N.ltb_irrefl, N.eqb_refl. simpl. by apply IH.
Qed.

Lemma str_max_longest c l :
  Forall (λ r, forallb (N.eqb c) r = true) l →
  match str_max l with Ok m => longest l = Some m | Raise _ => l = [] end.
Proof.
  destruct l as [|x l]; [done |]. intros [Hx Hl]%Forall_cons. simpl. f_equal.
  revert x Hx. induction Hl as [|y l Hy Hl IH]; intros x Hx; [done |].
  simpl. rewrite (str_ltb_same c) by done.
  destruct (length x <? length y)%nat; by apply IH.
Qed.

Lemma newline_tier text :
  (contains [10%N] text || contains [13%N] text) = existsb is_newline text.
Proof.
  rewrite !contains_single. induction text as [|c text IH]; [done |].
  cbn [existsb]. rewrite <- IH. unfold is_newline.
  rewrite (N.eqb_sym 10 c), (N.eqb_sym 13 c).
  destruct (c =? 10)%N, (c =? 13)%N, (existsb (N.eqb 10) text), (existsb (N.eqb 13) text); done.
Qed.

Lemma tab_tier text : contains [9%N] text = existsb is_tab text.
Proof.
  rewrite contains_single. induction text as [|c text IH]; [done |].
  cbn [existsb]. rewrite <- IH. unfold is_tab. by rewrite (N.eqb_sym 9 c).
Qed.

Lemma findall_class cls text :
  Forall (λ r, forallb cls r = true) (findall cls text).
Proof. apply Forall_forall. intros r Hr. by eapply runs_from_class. Qed.

(** X1. A text that holds a newline or a carriage return is split at a run
    of such characters, whatever else it holds: the splitter returned is
    not empty, is made of these two characters only, occurs in the text, and
    is flagged as whitespace. *)
Theorem split_text_newline_first text :
  existsb is_newline text = true →
  ∃ splitter splits,
    _split_text text = Ok (splitter, true, splits) ∧
    splitter ≠ [] ∧ forallb is_newline splitter = true ∧
    contains splitter text = true.
Proof.
  intros H. unfold _split_text. rewrite newline_tier, H.
  destruct (splitter_found is_newline text H) as (m & Hm & Hne). rewrite Hm.
  rewrite split_ok by done. eexists _, _. split; [done |]. split; [done |].
  apply str_max_elem in Hm. split.
  - by eapply runs_from_class.
  - apply runs_from_occurs in Hm as (a & b & Hab). simpl in Hab. rewrite Hab.
    apply contains_occurrence.
Qed.

Lemma split_text_newline_first_witness :
  ∃ splitter splits,
    _split_text [97; 46; 9; 10; 98]%N = Ok (splitter, true, splits) ∧
    splitter ≠ [] ∧ forallb is_newline splitter = true ∧
    contains splitter [97; 46; 9; 10; 98]%N = true.
Proof. apply split_text_newline_first. reflexivity. Defined.

(** X2. A text that holds a tab and neither a newline nor a carriage return
    is split at its longest run of tabs. *)
Theorem split_text_longest_tabs text :
  existsb is_newline text = false → existsb is_tab text = true →
  ∃ splitter splits,
    _split_text text = Ok (splitter, true, splits) ∧
    forallb is_tab splitter = true ∧
    longest (findall is_tab text) = Some splitter.
Proof.
  intros Hn Ht. unfold _split_text. rewrite newline_tier, Hn, tab_tier, Ht.
  destruct (splitter_found is_tab text Ht) as (m & Hm & Hne).
  pose proof (str_max_longest 9%N (findall is_tab text)) as Hl.
  rewrite Hm in *. rewrite split_ok by done. eexists _, _. split; [done |]. split.
  - apply str_max_elem in Hm. by eapply runs_from_class.
  - apply Hl. eapply Forall_impl; [apply (findall_class is_tab) |].
    intros r Hr. simpl in *. rewrite <- Hr. clear.
    induction r as [|c r IH]; [done |]. cbn [forallb]. rewrite IH.
    unfold is_tab. by rewrite (N.eqb_sym 9 c).
Qed.

Lemma split_text_longest_tabs_witness :
  ∃ splitter splits,
    _split_text [97; 9; 98; 9; 9; 99; 32; 100]%N = Ok (splitter, true, splits) ∧
    forallb is_tab splitter = true ∧
    longest (findall is_tab [97; 9; 98; 9; 9; 99; 32; 100]%N) = Some splitter.
Proof. apply split_text_longest_tabs; reflexivity. Defined.

(** X3. When a splitter is found, no piece holds it. *)
Theorem split_text_pieces_without_splitter text splitter w splits :
  _split_text text = Ok (splitter, w, splits) → splitter ≠ [] →
  Forall (λ p, contains splitter p = false) splits.
Proof.
  intros Hs Hne. destruct (split_text_found _ _ _ _ Hs Hne) as [-> _].
  apply split_from_without; [done |]. intros u v Huv Hv. by destruct u, v.
Qed.

Lemma split_text_pieces_without_splitter_witness :
  Forall (λ p, contains [10; 10]%N p = false) [[97; 10; 98]; [99]]%N.
Proof.
  apply (split_text_pieces_without_splitter [97; 10; 98; 10; 10; 99]%N [10; 10]%N true).
  - reflexivity.
  - done.
Defined.

(** X4. When a splitter is found, there are at least two pieces and each is
    strictly shorter than the text. *)
Theorem split_text_pieces_shorter text splitter w splits :
  _split_text text = Ok (splitter, w, splits) → splitter ≠ [] →
  (2 ≤ length splits)%nat ∧
  Forall (λ p, (length p < length text)%nat) splits.
Proof.
  intros Hs Hne. destruct (split_text_found _ _ _ _ Hs Hne) as [-> (a & b & Hab)].
  assert (2 ≤ length (split_from splitter 0 [] text))%nat as H2.
  { rewrite Hab. by apply split_from_two. }
  split; [done |]. apply Forall_forall. intros p Hp.
  destruct (join_elem_length splitter _ p Hp) as [_ Hlen].
  rewrite join_split_from in Hlen by done. specialize (Hlen H2). simpl in Hlen.
  destruct splitter; [done |]. simpl in Hlen. lia.
Qed.

Lemma split_text_pieces_shorter_witness :
  (2 ≤ length [[97]; [98]]%N)%nat ∧
  Forall (λ p : str, (length p < length [97; 46; 98]%N)%nat) [[97]; [98]]%N.
Proof.
  apply (split_text_pieces_shorter [97; 46; 98]%N [46]%N false).
  - reflexivity.
  - done.
Defined.

(** X5. A splitter that is not flagged as whitespace is returned only for a
    text without any whitespace: it is then one character of the list
    [_NON_WHITESPACE_SEMANTIC_SPLITTERS] that occurs in the text, and none
    of the splitters before it in that list occurs in the text. *)
Theorem split_text_semantic_first text splitter splits :
  _split_text text = Ok (splitter, false, splits) →
  existsb is_space text = false ∧
  contains splitter text = true ∧
  ∃ before after,
    _NON_WHITESPACE_SEMANTIC_SPLITTERS = before ++ splitter :: after ∧
    forallb (λ s, negb (contains s text)) before = true.
Proof.
  unfold _split_text.
  assert (Hrun : ∀ cls P,
    match str_max (findall cls text) with
    | Raise e => Raise e
    | Ok splitter =>
        match split text splitter with
        | Raise e => Raise e
        | Ok splits => Ok (splitter, true, splits)
        end
    end = Ok (splitter, false, splits) → P).
  { intros cls P H. destruct (str_max _); [| done]. by destruct (split _ _). }
  destruct (contains [10%N] text || contains [13%N] text); [apply Hrun |].
  destruct (contains [9%N] text); [apply Hrun |].
  destruct (search is_space text) eqn:Hsp; [apply Hrun |].
  destruct (find _ _) as [d|] eqn:Hf; [| done].
  destruct (splitters_ne _ _ Hf) as (c & -> & _). rewrite split_ok by done.
  intros [= <- <-]. split; [done |].
  apply find_first in Hf as (before & after & Hl & Hc & Hb). eauto.
Qed.

Lemma split_text_semantic_first_witness :
  existsb is_space [97; 44; 98; 63; 99]%N = false ∧
  contains [63]%N [97; 44; 98; 63; 99]%N = true ∧
  ∃ before after,
    _NON_WHITESPACE_SEMANTIC_SPLITTERS = before ++ [63]%N :: after ∧
    forallb (λ s, negb (contains s [97; 44; 98; 63; 99]%N)) before = true.
Proof.
  apply (split_text_semantic_first _ _ [[97; 44; 98]; [99]]%N). reflexivity.
Defined.

(** X6. The text is split into its characters, with an empty splitter, only
    when it holds no whitespace and none of the splitters of
    [_NON_WHITESPACE_SEMANTIC_SPLITTERS]. *)
Theorem split_text_characters_last text w splits :
  _split_text text = Ok ([], w, splits) →
  w = true ∧ splits = chars text ∧
  existsb is_space text = false ∧
  forallb (λ s, negb (contains s text)) _NON_WHITESPACE_SEMANTIC_SPLITTERS = true.
Proof.
  intros Hs. pose proof (split_text_inv _ _ _ _ Hs) as Hspec.
  inversion Hspec as [d Hd | | Hsp]; [done | subst].
  split; [done |]. split; [done |]. split; [done |].
  unfold _split_text in Hs.
  destruct (contains [10%N] text || contains [13%N] text) eqn:H1.
  { rewrite newline_tier in H1.
    destruct (splitter_found is_newline text H1) as (m & Hm & Hne). rewrite Hm in Hs.
    rewrite split_ok in Hs by done. by injection Hs as ->. }
  destruct (contains [9%N] text) eqn:H2.
  { rewrite tab_tier in H2.
    destruct (splitter_found is_tab text H2) as (m & Hm & Hne). rewrite Hm in Hs.
    rewrite split_ok in Hs by done. by injection Hs as ->. }
  unfold search in *. rewrite Hsp in Hs.
  destruct (find _ _) as [d|] eqn:Hf; [| by apply find_none_all].
  destruct (splitters_ne _ _ Hf) as (c & -> & _). by rewrite split_ok in Hs.
Qed.

Lemma split_text_characters_last_witness :
  true = true ∧ [[97]; [98]]%N = chars [97; 98]%N ∧
  existsb is_space [97; 98]%N = false ∧
  forallb (λ s, negb (contains s [97; 98]%N)) _NON_WHITESPACE_SEMANTIC_SPLITTERS = true.
Proof. apply (split_text_characters_last [97; 98]%N). reflexivity. Defined.

Lemma forallb_weaken {A} (f g : A → bool) l :
  (∀ x, f x = true → g x = true) → forallb f l = true → forallb g l = true.
Proof.
  intros H. induction l as [|x l IH]; [done |]. cbn [forallb].
  intros [Hx Hl]%andb_true_iff. by rewrite (H x Hx), IH.
Qed.

Lemma is_newline_space c : is_newline c = true → is_space c = true.
Proof.
  unfold is_newline. intros [->%N.eqb_eq | ->%N.eqb_eq]%orb_true_iff; reflexivity.
Qed.

Lemma is_tab_space c : is_tab c = true → is_space c = true.
Proof. unfold is_tab. by intros ->%N.eqb_eq. Qed.

(** A splitter flagged as whitespace is made of whitespace. *)
Lemma split_text_whitespace_splitter text splitter splits :
  _split_text text = Ok (splitter, true, splits) → forallb is_space splitter = true.
Proof.
  unfold _split_text.
  assert (Hrun : ∀ cls, (∀ c, cls c = true → is_space c = true) →
    match str_max (findall cls text) with
    | Raise e => Raise e
    | Ok splitter =>
        match split text splitter with
        | Raise e => Raise e
        | Ok splits => Ok (splitter, true, splits)
        end
    end = Ok (splitter, true, splits) → forallb is_space splitter = true).
  { intros cls Hcls H. destruct (str_max _) as [m|] eqn:Hm; [| done].
    destruct (split _ _); [| done]. injection H as -> _.
    apply str_max_elem in Hm. apply (forallb_weaken cls); [done |].
    by eapply runs_from_class. }
  destruct (contains [10%N] text || contains [13%N] text);
    [apply Hrun, is_newline_space |].
  destruct (contains [9%N] text); [apply Hrun, is_tab_space |].
  destruct (search is_space text); [by apply Hrun |].
  destruct (find _ _) as [d|]; [by destruct (split _ _) | by intros [= <- _]].
Qed.

(** X7. A text that holds whitespace is split at whitespace: the splitter
    returned is flagged as whitespace, is not empty, is made of whitespace
    only and occurs in the text. *)
Theorem split_text_whitespace text :
  existsb is_space text = true →
  ∃ splitter splits,
    _split_text text = Ok (splitter, true, splits) ∧
    splitter ≠ [] ∧ forallb is_space splitter = true ∧
    contains splitter text = true.
Proof.
  intros H. destruct (split_text_total text) as (d & w & splits & Hs & Hspec).
  inversion Hspec as [d' Hd | c Hsp _ | Hsp]; subst;
    [| unfold search in Hsp; congruence | unfold search in Hsp; congruence].
  exists d, (split_from d 0 [] text). split; [done |]. split; [done |]. split.
  - by eapply split_text_whitespace_splitter.
  - destruct (split_text_found _ _ _ _ Hs Hd) as [_ (a & b & ->)].
    apply contains_occurrence.
Qed.

Lemma split_text_whitespace_witness :
  ∃ splitter splits,
    _split_text [97; 32; 32; 98; 160; 99]%N = Ok (splitter, true, splits) ∧
    splitter ≠ [] ∧ forallb is_space splitter = true ∧
    contains splitter [97; 32; 32; 98; 160; 99]%N = true.
Proof. apply split_text_whitespace. reflexivity. Defined.

(** ** More on the merge engine *)

Lemma ST_bind_ext {A B} (m : ST A) (f g : A → ST B) σ :
  (∀ a σ', f a σ' = g a σ') → (m ≫= f) σ = (m ≫= g) σ.
Proof.
  intros H. unfold mbind, ST_bind. destruct (m σ) as [[a|e] σ']; [apply H | done].
Qed.

(** The turns given to the loop of [merge_splits] are enough in the program
    too. *)
Lemma merge_loop_turns_program counter k k' splits chunk_size splitter tc cum average
    low high σ :
  high - low ≤ Z.of_nat k → high - low ≤ Z.of_nat k' →
  merge_loop (call counter) k splits chunk_size splitter tc cum average low high σ =
  merge_loop (call counter) k' splits chunk_size splitter tc cum average low high σ.
Proof.
  revert k' average low high σ.
  induction k as [|k IH]; intros k' average low high σ Hk Hk'.
  - destruct k'; cbn [merge_loop]; [done |]. destruct (Z.ltb_spec low high); [lia | done].
  - destruct k' as [|k']; cbn [merge_loop].
    + destruct (Z.ltb_spec low high); [lia | done].
    + destruct (Z.ltb_spec low high); [| done].
      apply ST_bind_ext. intros x σ1.
      pose proof (bisect_left_bounds (slice cum low (high + 1)) x) as [Hi _].
      apply ST_bind_ext. intros tokens σ2.
      apply ST_bind_ext. intros c σ3. apply ST_bind_ext. intros average' σ4.
      destruct (chunk_size <? _); apply IH; lia.
Qed.

(** X8. The loop of [merge_splits] ends within [len(splits) + 1] turns by
    its own test: given more turns it does the same, on any caches. *)
Theorem merge_splits_loop_ends counter turns splits chunk_size splitter tc cum average σ :
  (length splits < turns)%nat →
  merge_loop (call counter) turns splits chunk_size splitter tc cum average
    0 (len splits + 1) σ =
  merge_loop (call counter) (S (length splits)) splits chunk_size splitter tc cum average
    0 (len splits + 1) σ.
Proof.
  intros H. apply merge_loop_turns_program; unfold len; lia.
Qed.

Lemma merge_splits_loop_ends_witness :
  merge_loop (call characters) 7 [[97]; [98]]%N 1 [32%N] Counter [0; 1; 2; 2] float_0_2
    0 (len [[97]; [98]]%N + 1) no_caches =
  merge_loop (call characters) 3 [[97]; [98]]%N 1 [32%N] Counter [0; 1; 2; 2] float_0_2
    0 (len [[97]; [98]]%N + 1) no_caches.
Proof.
  apply (merge_splits_loop_ends characters 7 [[97]; [98]]%N). simpl. lia.
Defined.

(** X9. Whatever the counter, what [merge_splits] returns is a boundary: an
    integer [m] from -1 to the number of splits and the join of
    [splits[:m]], such that the first [m] splits joined are within the
    chunk size (unless [m] is -1) and the first [m + 1] are not (unless
    there are no more). *)
Theorem merge_splits_boundary counter splits chunk_size splitter tc σ m t :
  caches_ok counter σ →
  fst (merge_splits (call counter) splits chunk_size splitter tc σ) = Ok (m, t) →
  -1 ≤ m ≤ len splits ∧ t = join splitter (slice_to splits m) ∧
  (0 ≤ m → probe counter splitter splits m ≤ chunk_size) ∧
  (m < len splits → chunk_size < probe counter splitter splits (m + 1)).
Proof.
  intros Hσ H. rewrite merge_splits_returns in H by done.
  pose proof (merge_splits_spec counter splits chunk_size splitter tc) as Hs.
  by rewrite H in Hs.
Qed.

Lemma merge_splits_boundary_witness :
  -1 ≤ 1 ≤ len [[97]; [98]; [99]]%N ∧
  [97%N] = join [32%N] (slice_to [[97]; [98]; [99]]%N 1) ∧
  (0 ≤ 1 → probe dipping [32%N] [[97]; [98]; [99]]%N 1 ≤ 1) ∧
  (1 < len [[97]; [98]; [99]]%N → 1 < probe dipping [32%N] [[97]; [98]; [99]]%N (1 + 1)).
Proof.
  apply (merge_splits_boundary dipping [[97]; [98]; [99]]%N 1 [32%N] Counter no_caches).
  - apply no_caches_ok.
  - vm_compute. reflexivity.
Defined.



(** X11. With a counter that finds a token in every string but the empty
    one, a chunk size in the range of the floats and fewer characters than
    that range, [merge_splits] returns. *)
Theorem merge_splits_returns_normally counter splits chunk_size splitter tc σ :
  caches_ok counter σ →
  (∀ s, s ≠ [] → counter s ≠ 0) →
  Z.abs chunk_size < float_overflow →
  sumZ (map len splits) < float_overflow →
  ∃ m t, fst (merge_splits (call counter) splits chunk_size splitter tc σ) = Ok (m, t).
Proof.
  intros Hσ Hnz Hcs Hsum. rewrite merge_splits_returns by done.
  by apply merge_splits_total.
Qed.

Lemma merge_splits_returns_normally_witness :
  ∃ m t, fst (merge_splits (call characters) [[97]; [98]]%N 1 [32%N] Counter no_caches)
           = Ok (m, t).
Proof.
  apply (merge_splits_returns_normally characters).
  - apply no_caches_ok.
  - intros [|c s] Hs; [done |]. unfold characters, len. simpl. lia.
  - by vm_compute.
  - by vm_compute.
Defined.

(** X12. For no split at all and a chunk size in the range of the floats,
    [merge_splits] returns the empty string, with 0 when the empty string
    is within the chunk size and with -1 when it is not. *)
Theorem merge_splits_no_splits counter chunk_size splitter tc σ :
  caches_ok counter σ →
  Z.abs chunk_size < float_overflow →
  fst (merge_splits (call counter) [] chunk_size splitter tc σ)
    = Ok (if counter [] <=? chunk_size then 0 else -1, []).
Proof.
  intros Hσ Hcs. rewrite merge_splits_returns by done.
  rewrite merge_splits_pure. cbn [length merge_loop].
  change (len [] + 1) with 1. cbn [Z.ltb Z.compare].
  destruct (int_mul_float_cases chunk_size float_0_2) as [[_ ?] | (x & -> & _)]; [lia |].
  cbn [lift mbind result_bind mret result_ret].
  pose proof (bisect_left_bounds (slice (cumulative []) 0 (1 + 1)) x) as [Hi _].
  rewrite Z.add_0_r. change (1 - 1) with 0. rewrite Z.min_r by done.
  rewrite call_pure_bind. change (index (cumulative []) 0) with (@Ok Z 0).
  cbn [lift mbind result_bind mret result_ret Z.eqb].
  rewrite slice_to_0. cbn [join].
  destruct (Z.ltb_spec chunk_size (counter [])), (Z.leb_spec (counter []) chunk_size);
    try lia; reflexivity.
Qed.

Lemma merge_splits_no_splits_witness :
  fst (merge_splits (call characters) [] 1 [32%N] Counter no_caches)
    = Ok (if characters [] <=? 1 then 0 else -1, []).
Proof.
  apply merge_splits_no_splits; [apply no_caches_ok | by vm_compute].
Defined.

(** ** More on the orchestrator *)

Lemma chunk_returns_normally_witness :
  ∃ chunks σ',
    chunk characters 10 [97; 46; 98]%N 1 Counter true 0 no_caches = (Ok chunks, σ').
Proof.
  apply chunk_returns_normally.
  - apply no_caches_ok.
  - split; [by vm_compute |]. split; [intros c; by vm_compute |]. split; [| by vm_compute].
    intros [|c s] Hs; [done |]. unfold characters, len. simpl. lia.
  - by vm_compute.
  - simpl. lia.
Defined.

(** X14. The empty text has no chunk: on it [chunk] returns the empty list
    for every counter, chunk size and depth, as soon as one call is
    allowed. *)
Theorem chunk_empty_text counter limit chunk_size tc memoize depth σ :
  caches_ok counter σ →
  fst (chunk counter (S limit) [] chunk_size tc memoize depth σ) = Ok [].
Proof.
  intros Hσ.
  destruct (follows_chunk counter (S limit) [] chunk_size tc memoize depth σ Hσ)
    as (r & σ' & -> & _ & Hs).
  assert (chunk_pure counter (S limit) [] chunk_size tc memoize depth = Ok []) as Hp.
  { cbn [chunk_pure]. unfold chunk_body.
    destruct ((depth =? 0) && memoize); cbn; by destruct (depth =? 0). }
  rewrite Hp in Hs. by destruct Hs as [? | <-].
Qed.

Lemma chunk_empty_text_witness :
  fst (chunk two_per_character 1 [] 1 Counter true 0 no_caches) = Ok [].
Proof. apply chunk_empty_text, no_caches_ok. Defined.

(** X15. A call that returned is answered from the cache when it is made
    again: the same list comes back, the caches stay as they are, and one
    call allowed is enough, whatever the first call needed. *)
Theorem chunk_repeated_call counter limit limit' text chunk_size tc memoize depth σ chunks σ' :
  chunk counter limit text chunk_size tc memoize depth σ = (Ok chunks, σ') →
  chunk counter (S limit') text chunk_size tc memoize depth σ' = (Ok chunks, σ').
Proof.
  destruct limit as [|l]; [done |]. cbn [chunk]. unfold cached.
  destruct (chunk_cache σ !! _) as [r|] eqn:Hc.
  - intros [= -> ->]. by rewrite Hc.
  - match goal with |- context [match ?b σ with _ => _ end] =>
      destruct (b σ) as [[r|e] σ1] end; [| done].
    intros [= -> <-]. cbn [chunk_cache]. by rewrite lookup_insert_eq.
Qed.

Lemma chunk_repeated_call_witness :
  let σ' := snd (chunk characters 10 [97; 46; 98]%N 1 Counter true 0 no_caches) in
  chunk characters 1 [97; 46; 98]%N 1 Counter true 0 σ' = (Ok [[97]; [46]; [98]]%N, σ').
Proof.
  apply (chunk_repeated_call characters 10 0 _ _ _ _ _ no_caches). vm_compute. reflexivity.
Defined.

Lemma join_take_prefix sep l j : ∃ r, join sep l = join sep (take j l) ++ r.
Proof.
  pose proof (take_drop j l) as E.
  destruct (take j l) as [|x xs]; [by eexists |].
  destruct (drop j l) as [|y ys].
  - exists []. rewrite app_nil_r in E. by rewrite <- E, app_nil_r.
  - rewrite <- E. rewrite join_app by done. by eexists.
Qed.

Lemma chunk_loop_skipped counter rec splits splitter w chunk_size tc memoize depth
    rest i chunks skips :
  (∀ j, i ≤ j < i + len rest → j ∈ skips) →
  chunk_loop (call_pure counter) rec splits splitter w chunk_size tc memoize depth
    rest i chunks skips = Ok chunks.
Proof.
  revert i. induction rest as [|split rest IH]; intros i H; [done |].
  pose proof (len_nonneg rest). cbn [chunk_loop]. rewrite bool_decide_eq_true_2.
  - apply IH. intros j Hj. apply H. unfold len in *. simpl. lia.
  - apply H. unfold len in *. simpl. lia.
Qed.

Lemma chunk_pure_fitting counter limit text chunk_size tc memoize :
  text ≠ [] →
  (∀ a b, counter a ≤ counter (a ++ b)) →
  (∀ s, s ≠ [] → counter s ≠ 0) →
  counter text ≤ chunk_size →
  Z.abs chunk_size < float_overflow → len text < float_overflow →
  chunk_pure counter (S limit) text chunk_size tc memoize 0 = Ok [text].
Proof.
  intros Hne Hmono Hnz Hfit Hcs Hlen. cbn [chunk_pure]. unfold chunk_body.
  set (tc0 := if (0 =? 0) && memoize then memoised_pure tc else mret tc).
  assert (∃ c, tc0 = Ok c) as [tc' ->].
  { subst tc0. destruct (_ && _); by eexists. }
  cbn [mbind result_bind].
  destruct (split_text_total text) as (d & w & splits & -> & Hspec).
  apply split_text_spec_join in Hspec as Hjoin.
  cbn [lift mbind result_bind mret result_ret].
  destruct splits as [|s0 rest] eqn:Hsplits; [by subst |]. rewrite <- Hsplits in *.
  pose proof (len_nonneg splits) as Hn.
  assert (∀ j, 0 ≤ j ≤ len splits → probe counter d splits j ≤ chunk_size) as Hprobe.
  { intros j Hj. unfold probe. rewrite slice_to_take by lia.
    destruct (join_take_prefix d splits (Z.to_nat j)) as [r Hr].
    pose proof (Hmono (join d (take (Z.to_nat j) splits)) r) as Hm.
    rewrite <- Hr, Hjoin in Hm. lia. }
  assert (counter s0 ≤ chunk_size) as H0.
  { pose proof (Hprobe 1) as H1. unfold probe in H1. rewrite slice_to_take in H1 by lia.
    rewrite Hsplits in H1. apply H1. unfold len. simpl. lia. }
  match goal with |- context [chunk_loop ?c ?r ?a ?b ?w ?cs ?t ?m ?dp splits] =>
    replace (chunk_loop c r a b w cs t m dp splits)
      with (chunk_loop c r a b w cs t m dp (s0 :: rest)) by (by rewrite Hsplits) end.
  cbn [chunk_loop]. rewrite bool_decide_eq_false_2 by set_solver.
  unfold chunk_or_merge. rewrite call_pure_bind.
  destruct (Z.ltb_spec chunk_size (counter s0)) as [? | _]; [lia |].
  rewrite slice_from_drop by done. change (Z.to_nat 0) with 0%nat. rewrite drop_0.
  rewrite (merge_splits_threshold counter splits chunk_size d tc' (len splits)); cycle 1.
  { lia. }
  { intros j Hj. split; [lia |]. intros _. by apply Hprobe. }
  { done. }
  { pose proof (sumZ_len_join d splits). rewrite Hjoin in *. lia. }
  { intros j Hj Hp Hz. apply Hnz in Hz; [done |]. intros Hnil. apply Hp.
    unfold prefix_len. by eapply join_nil_len. }
  cbn [mbind result_bind mret result_ret].
  rewrite slice_to_take by lia.
  replace (take (Z.to_nat (len splits)) splits) with splits
    by (unfold len; by rewrite Nat2Z.id, firstn_all).
  rewrite Hjoin.
  unfold attach_splitter.
  assert (forallb (λ j, bool_decide (j ∈ (∅ : gset Z) ∪ list_to_set (range (0 + 1) (0 + len splits))))
            (range (0 + 1) (len splits)) = true) as ->.
  { apply forallb_forall. intros j Hj%list_elem_of_In. apply bool_decide_eq_true_2.
    apply elem_of_union_r, elem_of_list_to_set. by rewrite Z.add_0_l. }
  rewrite orb_true_r, andb_false_r. cbn [mbind result_bind mret result_ret].
  rewrite chunk_loop_skipped.
  - cbn. rewrite decide_True by done. done.
  - intros j Hj. apply elem_of_union_r, elem_of_list_to_set.
    unfold range. rewrite elem_of_seqZ. rewrite Hsplits. unfold len in *. simpl. lia.
Qed.

(** X16. A text that is within the chunk size is returned whole, as the one
    chunk: for a counter that never finds fewer tokens in a string than in
    a prefix of it, and finds a token in every string but the empty one, a
    text that is not empty and is within the chunk size is the only chunk
    of itself. *)
Theorem chunk_fitting_text counter limit text chunk_size memoize σ :
  caches_ok counter σ →
  text ≠ [] →
  (∀ a b, counter a ≤ counter (a ++ b)) →
  (∀ s, s ≠ [] → counter s ≠ 0) →
  counter text ≤ chunk_size →
  Z.abs chunk_size < float_overflow → len text < float_overflow →
  fst (chunk counter (S limit) text chunk_size Counter memoize 0 σ) = Ok [text].
Proof.
  intros Hσ Hne Hmono Hnz Hfit Hcs Hlen.
  destruct (follows_chunk counter (S limit) text chunk_size Counter memoize 0 σ Hσ)
    as (r & σ' & -> & _ & Hs).
  rewrite chunk_pure_fitting in Hs by done. by destruct Hs as [? | <-].
Qed.

Lemma chunk_fitting_text_witness :
  fst (chunk characters 1 [97; 32; 98; 46]%N 4 Counter true 0 no_caches)
    = Ok [[97; 32; 98; 46]%N].
Proof.
  apply chunk_fitting_text.
  - apply no_caches_ok.
  - done.
  - intros a b. unfold characters, len. rewrite length_app. lia.
  - intros [|c s] Hs; [done |]. unfold characters, len. simpl. lia.
  - by vm_compute.
  - by vm_compute.
  - by vm_compute.
Defined.

(** ** What a call does to the caches *)

Section keeping.
Variable counter : str → Z.
Variable R : caches → caches → Prop.
Hypothesis R_refl : ∀ σ, R σ σ.
Hypothesis R_trans : ∀ σ1 σ2 σ3, R σ1 σ2 → R σ2 σ3 → R σ1 σ3.

Lemma keeps_ret {A} (a : A) : keeps R (mret a).
Proof. intros σ. apply R_refl. Qed.

Lemma keeps_lift {A} (r : result A) : keeps R (lift r).
Proof. intros σ. destruct r; apply R_refl. Qed.

Lemma keeps_bind {A B} (m : ST A) (f : A → ST B) :
  keeps R m → (∀ a, keeps R (f a)) → keeps R (m ≫= f).
Proof.
  intros Hm Hf σ. specialize (Hm σ). unfold mbind, ST_bind.
  destruct (m σ) as [[a|e] σ1]; [| done]. eapply R_trans; [exact Hm | apply Hf].
Qed.

Variable tc : callable.
Hypothesis call_keeps : ∀ s, keeps R (call counter tc s).

Lemma keeps_merge_loop turns splits chunk_size splitter cum average low high :
  keeps R (merge_loop (call counter) turns splits chunk_size splitter tc cum average low high).
Proof.
  revert average low high. induction turns as [|k IH]; intros average low high;
    cbn [merge_loop]; [apply keeps_ret |].
  destruct (low <? high); [| apply keeps_ret].
  apply keeps_bind; [apply keeps_lift |]. intros x.
  apply keeps_bind; [apply call_keeps |]. intros tokens.
  apply keeps_bind; [apply keeps_lift |]. intros c.
  apply keeps_bind; [destruct (c =? 0); [apply keeps_ret | apply keeps_lift] |].
  intros average'. destruct (chunk_size <? tokens); apply IH.
Qed.

Lemma keeps_merge_splits splits chunk_size splitter :
  keeps R (merge_splits (call counter) splits chunk_size splitter tc).
Proof.
  unfold merge_splits. apply keeps_bind; [apply keeps_lift |]. intros last.
  apply keeps_bind; [apply keeps_merge_loop |]. intros low. apply keeps_ret.
Qed.

Lemma keeps_attach_splitter splits splitter w chunk_size i chunks skips :
  keeps R (attach_splitter (call counter) splits splitter w chunk_size tc i chunks skips).
Proof.
  unfold attach_splitter. destruct (_ && _); [| apply keeps_ret].
  apply keeps_bind; [apply keeps_lift |]. intros last.
  apply keeps_bind; [apply call_keeps |]. intros tokens.
  destruct (tokens <=? chunk_size); apply keeps_ret.
Qed.

Variable rec : str → Z → callable → bool → Z → ST (list str).
Variables (chunk_size : Z) (memoize : bool) (depth : Z).
Hypothesis rec_keeps : ∀ split, keeps R (rec split chunk_size tc memoize (depth + 1)).

Lemma keeps_chunk_or_merge splits splitter i split chunks skips :
  keeps R (chunk_or_merge (call counter) rec splits splitter chunk_size tc memoize depth
             i split chunks skips).
Proof.
  unfold chunk_or_merge. apply keeps_bind; [apply call_keeps |]. intros tokens.
  destruct (chunk_size <? tokens).
  - apply keeps_bind; [apply rec_keeps |]. intros sub. apply keeps_ret.
  - apply keeps_bind; [apply keeps_merge_splits |]. intros [m new]. apply keeps_ret.
Qed.

Lemma keeps_chunk_loop splits splitter w rest i chunks skips :
  keeps R (chunk_loop (call counter) rec splits splitter w chunk_size tc memoize depth
             rest i chunks skips).
Proof.
  revert i chunks skips. induction rest as [|split rest IH]; intros i chunks skips;
    cbn [chunk_loop]; [apply keeps_ret |].
  case_bool_decide; [apply IH |].
  apply keeps_bind; [apply keeps_chunk_or_merge |]. intros [chunks1 skips1].
  apply keeps_bind; [apply keeps_attach_splitter |]. intros chunks2. apply IH.
Qed.
End keeping.

Lemma keeps_chunk_body counter R rec text chunk_size tc memoize depth :
  (∀ σ, R σ σ) → (∀ σ1 σ2 σ3, R σ1 σ2 → R σ2 σ3 → R σ1 σ3) →
  let tc' := if (depth =? 0) && memoize then Memoised else tc in
  (∀ s, keeps R (call counter tc' s)) →
  (∀ split, keeps R (rec split chunk_size tc' memoize (depth + 1))) →
  keeps R (chunk_body (call counter) memoised rec text chunk_size tc memoize depth).
Proof.
  intros Hrefl Htrans tc' Hcall Hrec.
  assert (keeps R
    ('(splitter, splitter_is_whitespace, splits) ← lift (_split_text text);
     chunks ← chunk_loop (call counter) rec splits splitter splitter_is_whitespace
                chunk_size tc' memoize depth splits 0 [] ∅;
     if depth =? 0 then mret (filter (λ c, c ≠ []) chunks) else mret chunks)) as Hk.
  { apply keeps_bind; [done | by apply keeps_lift |]. intros [[d w] splits].
    apply keeps_bind; [done | by apply keeps_chunk_loop |]. intros chunks.
    destruct (depth =? 0); by apply keeps_ret. }
  intros σ. specialize (Hk σ). unfold chunk_body. subst tc'.
  destruct ((depth =? 0) && memoize); exact Hk.
Qed.

Lemma extends_refl d σ : extends d σ σ.
Proof. done. Qed.

Lemma extends_trans d σ1 σ2 σ3 : extends d σ1 σ2 → extends d σ2 σ3 → extends d σ1 σ3.
Proof.
  intros (Ht1 & Hc1 & Hk1) (Ht2 & Hc2 & Hk2). split; [by etrans |]. split; [by etrans |].
  intros key Hkey. by rewrite Hk2, Hk1.
Qed.

Lemma extends_below d d' σ σ' : d' ≤ d → extends d σ σ' → extends d' σ σ'.
Proof.
  intros Hd (Ht & Hc & Hk). split; [done |]. split; [done |].
  intros key Hkey. apply Hk. lia.
Qed.

Lemma call_extends counter d tc s : keeps (extends d) (call counter tc s).
Proof.
  intros σ. destruct tc; simpl; [done |].
  destruct (token_cache σ !! s) eqn:Hs; simpl; [done |].
  split; [by apply insert_subseteq | done].
Qed.

Lemma cached_extends (key : str * Z * callable * bool * Z) body :
  keeps (extends (key.2 + 1)) body → keeps (extends key.2) (cached key body).
Proof.
  intros Hb σ. unfold cached. destruct (chunk_cache σ !! key) eqn:Hkey; [done |].
  specialize (Hb σ). destruct (body σ) as [[r|e] σ1]; cbn [snd chunk_cache token_cache] in *.
  - destruct Hb as (Ht & Hc & Hk). split; [done |]. split.
    + etrans; [exact Hc |]. apply insert_subseteq. rewrite Hk by lia. done.
    + intros key' Hlt. cbn [chunk_cache]. rewrite lookup_insert_ne by (intros ->; lia). apply Hk. lia.
  - eapply extends_below; [| exact Hb]. lia.
Qed.

Lemma chunk_extends counter limit text chunk_size tc memoize depth :
  keeps (extends depth) (chunk counter limit text chunk_size tc memoize depth).
Proof.
  revert text tc depth. induction limit as [|l IH]; intros text tc depth; [done |].
  cbn [chunk].
  apply (cached_extends (text, chunk_size, tc, memoize, depth)). cbn [snd].
  apply keeps_chunk_body.
  - apply extends_refl.
  - apply extends_trans.
  - intros s. apply call_extends.
  - intros split. apply IH.
Qed.

(** X17. A call of [chunk] never takes an entry out of a cache, nor changes
    one: the caches it leaves hold every entry they held, with the same
    value. *)
Theorem chunk_caches_grow counter limit text chunk_size tc memoize depth σ :
  token_cache σ ⊆ token_cache (chunk counter limit text chunk_size tc memoize depth σ).2 ∧
  chunk_cache σ ⊆ chunk_cache (chunk counter limit text chunk_size tc memoize depth σ).2.
Proof.
  destruct (chunk_extends counter limit text chunk_size tc memoize depth σ) as (? & ? & _).
  done.
Qed.

(** X18. A call of [chunk] that raises stores nothing for its arguments: the
    cache of [chunk] has no entry for them afterwards, so that the call
    made again runs the body again. *)
Theorem chunk_raise_not_cached counter limit text chunk_size tc memoize depth σ e :
  (chunk counter (S limit) text chunk_size tc memoize depth σ).1 = Raise e →
  chunk_cache (chunk counter (S limit) text chunk_size tc memoize depth σ).2
    !! (text, chunk_size, tc, memoize, depth) = None.
Proof.
  cbn [chunk]. unfold cached.
  destruct (chunk_cache σ !! _) as [r|] eqn:Hkey; [done |].
  match goal with |- context [match ?b σ with _ => _ end] =>
    pose proof (keeps_chunk_body counter (extends (depth + 1)) (chunk counter limit)
                  text chunk_size tc memoize depth
                  (extends_refl _) (extends_trans _)
                  (λ s, call_extends counter _ _ s)
                  (λ split, chunk_extends counter limit split chunk_size _ memoize (depth + 1))
                  σ) as Hb;
    destruct (b σ) as [[r|e'] σ1] end; [done |].
  intros _. cbn [snd] in *. destruct Hb as (_ & _ & Hk). rewrite Hk; [done |]. simpl. lia.
Qed.

Lemma chunk_raise_not_cached_witness :
  chunk_cache (chunk two_per_character 5 [97%N] 1 Counter true 0 no_caches).2
    !! ([97%N], 1, Counter, true, 0) = None.
Proof.
  apply (chunk_raise_not_cached two_per_character 4 [97%N] 1 Counter true 0 no_caches
           RecursionError).
  vm_compute. reflexivity.
Defined.

(** X19. With [memoize] false and the caller's own counter, a call of [chunk]
    at any depth leaves the cache of token counts as it was. *)
Theorem chunk_unmemoised_token_cache counter limit text chunk_size depth σ :
  token_cache (chunk counter limit text chunk_size Counter false depth σ).2 = token_cache σ.
Proof.
  revert text depth σ. induction limit as [|l IH]; intros text depth σ; [done |].
  cbn [chunk]. unfold cached. destruct (chunk_cache σ !! _); [done |].
  pose proof (keeps_chunk_body counter (λ σ σ', token_cache σ' = token_cache σ)
                (chunk counter l) text chunk_size Counter false depth) as Hb.
  specialize (Hb ltac:(done) ltac:(congruence)).
  rewrite andb_false_r in Hb.
  specialize (Hb ltac:(done) ltac:(intros split σ0; apply IH) σ).
  match goal with |- context [match ?b σ with _ => _ end] =>
    destruct (b σ) as [[r|e'] σ1] end; exact Hb.
Qed.

(** ** What the orchestrator raises *)

Section chunk_loop_raise.
Variable counter : str → Z.
Variable rec : str → Z → callable → bool → Z → result (list str).
Variables (splits : list str) (splitter : str) (w : bool) (chunk_size : Z).
Variables (tc : callable) (memoize : bool) (depth : Z).

(** The rule for a loop of [chunk] that raises: with a property that the
    turns that return keep, what the loop raises is raised by a turn at
    which the property holds. *)
Lemma chunk_loop_raises (Inv : Z → list str → gset Z → Prop) (E : exn → Prop) :
  (∀ i chunks skips,
     0 ≤ i < len splits → Inv i chunks skips → i ∈ skips → Inv (i + 1) chunks skips) →
  (∀ i split rest chunks skips,
     0 ≤ i → drop (Z.to_nat i) splits = split :: rest →
     Inv i chunks skips → i ∉ skips →
     match chunk_or_merge (call_pure counter) rec splits splitter chunk_size tc memoize depth
             i split chunks skips with
     | Raise e => E e
     | Ok (chunks1, skips1) =>
         match attach_splitter (call_pure counter) splits splitter w chunk_size tc
                 i chunks1 skips1 with
         | Raise e => E e
         | Ok chunks2 => Inv (i + 1) chunks2 skips1
         end
     end) →
  ∀ rest i chunks skips e,
    0 ≤ i ≤ len splits → drop (Z.to_nat i) splits = rest → Inv i chunks skips →
    chunk_loop (call_pure counter) rec splits splitter w chunk_size tc memoize depth
      rest i chunks skips = Raise e →
    E e.
Proof.
  intros Hskip Hturn rest. induction rest as [|split rest IH]; intros i chunks skips e Hi Hd HI;
    [done |].
  assert (Z.to_nat i < length splits)%nat as Hlt.
  { apply (f_equal length) in Hd. rewrite length_drop in Hd. simpl in Hd. lia. }
  assert (drop (Z.to_nat (i + 1)) splits = rest) as Hd'.
  { replace (Z.to_nat (i + 1)) with (Z.to_nat i + 1)%nat by lia.
    rewrite <- drop_drop. by rewrite Hd. }
  cbn [chunk_loop]. case_bool_decide as Hs.
  - apply IH; [unfold len; lia | done |]. apply Hskip; [unfold len; lia | done | done].
  - specialize (Hturn i split rest chunks skips ltac:(lia) Hd HI Hs).
    destruct (chunk_or_merge _ _ _ _ _ _ _ _ _ _ _ _) as [[chunks1 skips1]|e1];
      cbn [mbind result_bind]; [| by intros [= <-]].
    destruct (attach_splitter _ _ _ _ _ _ _ _ _) as [chunks2|e2];
      cbn [mbind result_bind]; [| by intros [= <-]].
    apply IH; [unfold len; lia | done | done].
Qed.
End chunk_loop_raise.

Lemma merge_error_chunk_error counter splits chunk_size splitter low high e :
  0 ≤ low →
  merge_error counter splits chunk_size splitter low high e →
  chunk_error counter chunk_size e.
Proof.
  intros Hlow [[-> ?] | (j & Hj & Hp & Hcase)].
  { right. right. split; [done |]. by left. }
  assert (join splitter (slice_to splits j) ≠ []) as Hne.
  { intros Hnil. apply Hp. unfold prefix_len. by eapply join_nil_len. }
  destruct Hcase as [[-> Hz] | (-> & Hz & Ho)]; right.
  - left. split; [done |]. by eexists.
  - right. split; [done |]. right. eexists. split; [exact Hne |].
    pose proof (prefix_len_bounds splits j ltac:(lia)).
    pose proof (sumZ_len_join splitter (slice_to splits j)).
    unfold probe, prefix_len in *. lia.
Qed.

(** Without the caches. *)
Lemma chunk_pure_raises counter chunk_size limit text tc memoize depth e :
  counter [] ≤ chunk_size → 0 ≤ depth →
  chunk_pure counter limit text chunk_size tc memoize depth = Raise e →
  chunk_error counter chunk_size e.
Proof.
  intros H0. revert text tc memoize depth e.
  induction limit as [|l IH]; intros text tc memoize depth e Hdepth.
  { intros [= <-]. by left. }
  cbn [chunk_pure]. unfold chunk_body.
  set (m := if (depth =? 0) && memoize then _ else _).
  assert (∃ c, m = Ok c) as [tc' ->]
    by (subst m; destruct ((depth =? 0) && memoize); by eexists).
  cbn [mbind result_bind].
  destruct (split_text_total text) as (d & w & splits & Hs & _). rewrite Hs.
  cbn [lift mbind result_bind mret result_ret].
  pose proof (len_nonneg splits) as Hn.
  destruct (chunk_loop _ _ _ _ _ _ _ _ _ _ _ _ _) as [chunks|e'] eqn:Hl;
    cbn [mbind result_bind]; [by destruct (depth =? 0) |].
  intros [= ->].
  eapply (chunk_loop_raises _ _ _ _ _ _ _ _ _ (in_order_inv splits d w)) in Hl;
    [exact Hl | | | lia | done | apply in_order_start].
  - intros. by apply in_order_skip.
  - intros i split rest cks skips Hi Hd HI Hout.
    assert (Hrec : ∀ sub, chunk_size < counter split →
              chunk_pure counter l split chunk_size tc' memoize (depth + 1) = Ok sub →
              ends_with sub split).
    { intros sub Hc Hsub. eapply chunk_pure_in_order; [| | exact Hsub | lia |]; [done | lia |].
      intros ->. lia. }
    destruct (chunk_or_merge _ _ _ _ _ _ _ _ _ _ _ _) as [[cks1 skips1]|e1] eqn:Hom.
    + assert (cks1 ≠ []) as Hne.
      { destruct HI as (nxt & Hnxt & Hsk & Hnil & Hpos).
        assert (nxt = i) as ->.
        { destruct (decide (i < nxt)) as [Hlt|]; [| lia]. by apply Hsk in Hlt. }
        eapply in_order_or_merge in Hom as (m' & _ & _ & _ & (init & c & _ & -> & _));
          try done.
        by destruct init. }
      destruct (attach_splitter_total counter splits d w chunk_size tc' i cks1 skips1 Hne)
        as [cks2 Ha].
      rewrite Ha. by eapply in_order_turn.
    + unfold chunk_or_merge in Hom. rewrite call_pure_bind in Hom.
      destruct (chunk_size <? counter split).
      * destruct (chunk_pure counter l split chunk_size tc' memoize (depth + 1))
          as [sub|e2] eqn:Hsub; [done |].
        injection Hom as ->. eapply IH; [| exact Hsub]. lia.
      * pose proof (merge_splits_spec counter (slice_from splits i) chunk_size d tc') as Hm.
        destruct (merge_splits _ _ _ _ _) as [[m' t]|e2]; [done |].
        injection Hom as ->. eapply merge_error_chunk_error; [| exact Hm]. lia.
Qed.

(** X20. With the empty string within the chunk size, [chunk] raises nothing
    but [RecursionError], [ZeroDivisionError] and [OverflowError], and
    never [IndexError] or [ValueError]; it raises [ZeroDivisionError] only
    when the counter finds no token in a string that is not empty, and
    [OverflowError] only when the chunk size is out of the range of the
    floats or the characters of a string, divided by its tokens, are. *)
Theorem chunk_raises counter limit text chunk_size memoize σ e :
  caches_ok counter σ →
  counter [] ≤ chunk_size →
  (chunk counter limit text chunk_size Counter memoize 0 σ).1 = Raise e →
  e = RecursionError ∨
  (e = ZeroDivisionError ∧ ∃ s, s ≠ [] ∧ counter s = 0) ∨
  (e = OverflowError ∧
   (float_overflow ≤ Z.abs chunk_size ∨
    ∃ s, s ≠ [] ∧ float_overflow * Z.abs (counter s) ≤ len s)).
Proof.
  intros Hσ H0 Hr.
  destruct (chunk counter limit text chunk_size Counter memoize 0 σ) as [r σ'] eqn:Hc.
  simpl in Hr. subst r.
  destruct (chunk_returns _ _ _ _ _ _ _ _ _ _ Hσ Hc) as [_ [[= ->] | [L HL]]]; [by left |].
  eapply (chunk_pure_raises counter chunk_size L); [done | | by apply HL]. done.
Qed.

Lemma chunk_raises_witness :
  ZeroDivisionError = RecursionError ∨
  (ZeroDivisionError = ZeroDivisionError ∧ ∃ s, s ≠ [] ∧ no_tokens s = 0) ∨
  (ZeroDivisionError = OverflowError ∧
   (float_overflow ≤ Z.abs 1 ∨
    ∃ s, s ≠ [] ∧ float_overflow * Z.abs (no_tokens s) ≤ len s)).
Proof.
  apply (chunk_raises no_tokens 3 [97%N] 1 true no_caches).
  - apply no_caches_ok.
  - by vm_compute.
  - vm_compute. reflexivity.
Defined.

(** ** No character is lost *)

Lemma without_whitespace_app a b :
  without_whitespace (a ++ b) = without_whitespace a ++ without_whitespace b.
Proof. apply filter_app. Qed.

Lemma without_whitespace_spaces s :
  forallb is_space s = true → without_whitespace s = [].
Proof.
  induction s as [|c s IH]; [done |]. cbn [forallb]. intros [Hc Hs]%andb_true_iff.
  unfold without_whitespace. rewrite filter_cons_False by (by rewrite Hc). by apply IH.
Qed.

Lemma without_whitespace_none s :
  existsb is_space s = false → without_whitespace s = s.
Proof.
  induction s as [|c s IH]; [done |]. cbn [existsb]. intros [Hc Hs]%orb_false_iff.
  unfold without_whitespace. rewrite filter_cons_True by done. f_equal. by apply IH.
Qed.

Lemma concat_filter_nonempty (l : list str) : concat (filter (λ c, c ≠ []) l) = concat l.
Proof.
  induction l as [|x l IH]; [done |]. destruct x as [|c x].
  - by rewrite filter_cons_False by (by intros ?).
  - rewrite filter_cons_True by done. simpl. by rewrite IH.
Qed.

Section characters_facts.
Variable counter : str → Z.
Variable rec : str → Z → callable → bool → Z → result (list str).
Variables (splits : list str) (splitter : str) (w : bool) (chunk_size : Z).
Variables (tc : callable) (memoize : bool) (depth : Z).
Lemma characters_skip i chunks skips :
  characters_inv splits splitter w i chunks skips → i ∈ skips →
  characters_inv splits splitter w (i + 1) chunks skips.
Proof.
  intros (nxt & Hnxt & Hsk & Hnil & Hpos) Hin.
  exists nxt. apply Hsk in Hin; [| lia].
  split; [lia |]. split; [| done]. intros j Hj. apply Hsk. lia.
Qed.

Lemma characters_start : characters_inv splits splitter w 0 [] ∅.
Proof.
  pose proof (len_nonneg splits).
  exists 0. split; [lia |]. split; [| split; [done | lia]].
  intros j Hj. split; [set_solver | lia].
Qed.

Lemma characters_end chunks skips :
  characters_inv splits splitter w (len splits) chunks skips →
  without_whitespace (concat chunks) = without_whitespace (join splitter splits).
Proof.
  intros (nxt & Hnxt & _ & Hnil & Hpos).
  pose proof (len_nonneg splits) as Hn. assert (nxt = len splits) as -> by lia.
  destruct splits as [|p ps] eqn:E; [by rewrite Hnil |]. rewrite <- E in *.
  rewrite Hpos by (rewrite E; unfold len; simpl; lia).
  unfold consumed. rewrite Z.ltb_irrefl. unfold len.
  rewrite Nat2Z.id, firstn_all. by destruct w; rewrite app_nil_r.
Qed.
Hypothesis splitter_spaces : w = true → without_whitespace splitter = [].

Lemma characters_advance i m :
  0 < i → 1 ≤ m → i + m ≤ len splits →
  without_whitespace (consumed splits splitter w i) ++
    without_whitespace (join splitter (take (Z.to_nat m) (drop (Z.to_nat i) splits)))
  = without_whitespace (join splitter (take (Z.to_nat (i + m)) splits)).
Proof.
  intros Hi Hm Him. unfold consumed.
  destruct (Z.ltb_spec i (len splits)); [| lia].
  replace (Z.to_nat (i + m)) with (Z.to_nat i + Z.to_nat m)%nat by lia.
  rewrite <- take_take_drop. rewrite join_app; cycle 1.
  { intros Hx%(f_equal length). rewrite length_take in Hx. unfold len in *. simpl in Hx. lia. }
  { intros Hx%(f_equal length). rewrite length_take, length_drop in Hx.
    unfold len in *. simpl in Hx. lia. }
  rewrite !without_whitespace_app. rewrite <- app_assoc. f_equal. f_equal.
  destruct w; [by rewrite splitter_spaces | done].
Qed.

Lemma characters_turn i split rest chunks skips chunks1 skips1 chunks2 :
  counter [] ≤ chunk_size →
  (∀ sub, rec split chunk_size tc memoize (depth + 1) = Ok sub →
          without_whitespace (concat sub) = without_whitespace split) →
  0 ≤ i → drop (Z.to_nat i) splits = split :: rest →
  characters_inv splits splitter w i chunks skips → i ∉ skips →
  chunk_or_merge (call_pure counter) rec splits splitter chunk_size tc memoize depth
    i split chunks skips = Ok (chunks1, skips1) →
  attach_splitter (call_pure counter) splits splitter w chunk_size tc i chunks1 skips1
    = Ok chunks2 →
  characters_inv splits splitter w (i + 1) chunks2 skips1.
Proof.
  intros H0 Hrec Hi Hd (nxt & Hnxt & Hsk & Hnil & Hpos) Hout H1 H2.
  assert (nxt = i) as ->.
  { destruct (decide (i < nxt)) as [Hlt|]; [| lia]. by apply Hsk in Hlt. }
  assert (i + 1 ≤ len splits) as Hlen.
  { apply (f_equal length) in Hd. rewrite length_drop in Hd. simpl in Hd. unfold len. lia. }
  assert (∃ m, 1 ≤ m ∧ i + m ≤ len splits ∧
            (∀ j, i < j → j ∈ skips1 ↔ j < i + m) ∧
            without_whitespace (concat chunks1) =
              without_whitespace (concat chunks) ++
              without_whitespace (join splitter (take (Z.to_nat m) (drop (Z.to_nat i) splits))))
    as (m & Hm & Him & Hsk1 & Hc1).
  { apply chunk_or_merge_inv in H1
      as [(Hc & sub & Hsub & -> & ->) | (Hc & m & new & Hm & -> & ->)].
    - exists 1. split; [done |]. split; [done |]. split.
      + intros j Hj. rewrite Hsk by lia. lia.
      + rewrite Hd. cbn [Z.to_nat Pos.to_nat Pos.iter_op take join].
        rewrite concat_app, without_whitespace_app. f_equal. by apply Hrec.
    - rewrite slice_from_drop, Hd in Hm by done.
      apply merge_splits_first in Hm as (Hm & -> & _); [| done | done].
      assert (i + m ≤ len splits) as Him.
      { apply (f_equal length) in Hd. rewrite length_drop in Hd. unfold len in *. lia. }
      exists m. split; [lia |]. split; [done |]. split.
      + intros j Hj. rewrite elem_of_union, elem_of_list_to_set.
        unfold range. rewrite elem_of_seqZ, Hsk by lia. lia.
      + rewrite Hd. rewrite concat_app, without_whitespace_app. simpl.
        by rewrite app_nil_r. }
  assert (without_whitespace (concat chunks1)
            = without_whitespace (join splitter (take (Z.to_nat (i + m)) splits))) as Hj.
  { rewrite Hc1. destruct (decide (i = 0)) as [-> | Hne].
    - rewrite Hnil by done. simpl. by rewrite drop_0.
    - rewrite Hpos by lia. apply characters_advance; lia. }
  exists (i + m). split; [lia |]. split; [| split; [lia |]].
  { intros j Hij. apply Hsk1. lia. }
  intros _. unfold consumed.
  pose proof (attach_wanted_spec splits w i skips1 (i + m) Hsk1 ltac:(lia) Hi) as Hw.
  apply attach_splitter_inv in H2
    as [[Hn ->] | (Hy & init & last & -> & [[_ ->] | [_ ->]])].
  - rewrite Hn in Hw. rewrite without_whitespace_app, <- Hj.
    destruct w; [by rewrite app_nil_r |]. simpl in Hw. rewrite <- Hw. by rewrite app_nil_r.
  - rewrite Hy in Hw. destruct w; [done |]. simpl in Hw. rewrite <- Hw.
    rewrite without_whitespace_app, <- Hj.
    rewrite !concat_app, !without_whitespace_app. simpl.
    rewrite !app_nil_r, without_whitespace_app. by rewrite app_assoc.
  - rewrite Hy in Hw. destruct w; [done |]. simpl in Hw. rewrite <- Hw.
    rewrite without_whitespace_app, <- Hj.
    rewrite (concat_app (init ++ [last])), without_whitespace_app. simpl.
    by rewrite app_nil_r.
Qed.

End characters_facts.

(** Without the caches. *)
Lemma chunk_pure_characters counter chunk_size limit text tc memoize depth r :
  counter [] ≤ chunk_size →
  chunk_pure counter limit text chunk_size tc memoize depth = Ok r →
  without_whitespace (concat r) = without_whitespace text.
Proof.
  intros H0. revert text tc memoize depth r.
  induction limit as [|l IH]; intros text tc memoize depth r; [done |].
  cbn [chunk_pure]. intros (tc' & d & w & splits & chunks & Hs & Hl & ->)%chunk_body_inv.
  assert (join d splits = text) as Hjoin.
  { by eapply split_text_spec_join, split_text_inv. }
  assert (w = true → without_whitespace d = []) as Hd.
  { intros ->. by eapply without_whitespace_spaces, split_text_whitespace_splitter. }
  pose proof (len_nonneg splits) as Hn.
  assert (without_whitespace (concat chunks) = without_whitespace text) as Hc.
  { eapply (chunk_loop_inv _ _ _ _ _ _ _ _ _ (characters_inv splits d w))
      in Hl as [skips Hend]; [| | | lia | done |].
    - apply characters_end in Hend. by rewrite <- Hjoin.
    - intros. by apply characters_skip.
    - intros i split rest cks skips cks1 skips1 cks2 Hi Hdr HI Hout H1 H2.
      eapply characters_turn; try done. intros sub Hsub. by eapply IH.
    - apply characters_start. }
  destruct (depth =? 0); [| done]. by rewrite concat_filter_nonempty.
Qed.

(** X21. No character is lost, repeated or moved but whitespace: with the
    empty string within the chunk size, the chunks that [chunk] returns,
    put one after the other and cleared of whitespace, are the text cleared
    of whitespace. *)
Theorem chunk_keeps_characters counter limit text chunk_size memoize σ chunks σ' :
  caches_ok counter σ →
  counter [] ≤ chunk_size →
  chunk counter limit text chunk_size Counter memoize 0 σ = (Ok chunks, σ') →
  without_whitespace (concat chunks) = without_whitespace text.
Proof.
  intros H H0 Hr. destruct (chunk_returns_ok _ _ _ _ _ _ _ _ _ _ H Hr) as [l Hl].
  by eapply chunk_pure_characters.
Qed.

Lemma chunk_keeps_characters_witness :
  without_whitespace (concat [[97; 46]; [98]; [99]]%N)
    = without_whitespace [97; 46; 32; 98; 10; 99]%N.
Proof.
  apply (chunk_keeps_characters characters 10 _ 2 true no_caches _
           (snd (chunk characters 10 [97; 46; 32; 98; 10; 99]%N 2 Counter true 0 no_caches))).
  - apply no_caches_ok.
  - by vm_compute.
  - vm_compute. reflexivity.
Defined.

(** X22. A text without whitespace is the concatenation of its chunks: with
    the empty string within the chunk size, the chunks that [chunk] returns
    for such a text, put one after the other, are the text. *)
Theorem chunk_round_trip counter limit text chunk_size memoize σ chunks σ' :
  caches_ok counter σ →
  counter [] ≤ chunk_size →
  existsb is_space text = false →
  chunk counter limit text chunk_size Counter memoize 0 σ = (Ok chunks, σ') →
  concat chunks = text.
Proof.
  intros H H0 Ht Hr. destruct (chunk_returns_ok _ _ _ _ _ _ _ _ _ _ H Hr) as [l Hl].
  pose proof (chunk_pure_characters _ _ _ _ _ _ _ _ H0 Hl) as Hc.
  rewrite (without_whitespace_none text) in Hc by done.
  etrans; [| exact Hc]. symmetry. apply without_whitespace_none.
  apply chunk_pure_in_order in Hl as [Hord _]; [| done | done].
  apply in_order_contains in Hord. clear -Hord Ht.
  induction Hord as [|c chunks Hc _ IH]; [done |]. simpl. rewrite existsb_app, IH, orb_false_r.
  apply contains_inv in Hc as (a & b & ->).
  rewrite !existsb_app in Ht. by destruct (existsb is_space c); [rewrite orb_true_r in Ht |].
Qed.

Lemma chunk_round_trip_witness :
  concat [[97; 46]; [98; 44]; [99]]%N = [97; 46; 98; 44; 99]%N.
Proof.
  apply (chunk_round_trip characters 10 _ 2 true no_caches _
           (snd (chunk characters 10 [97; 46; 98; 44; 99]%N 2 Counter true 0 no_caches))).
  - apply no_caches_ok.
  - by vm_compute.
  - reflexivity.
  - vm_compute. reflexivity.
Defined.
